(** * JSSE: Javascript Simple Search Engine -- a shallow embedding of jsse.js

    The engine keeps an inverted index ([collection]) from normalized words to
    word entries, an explicit [size] counter and a store ([keys]) from document
    keys to the text they were added with.

    Modelling conventions.
    - A JavaScript string is a [string] of Latin-1 code units (one [ascii] per
      code unit).
    - A number that the program only counts with (lengths, counters, scores)
      is an exact integer: [Z] for the counters the program also decrements,
      [N] for scores.
    - An object literal [{}] used as a map is an ordered list of own
      properties, enumerated by [for .. in] in the order of the language
      (array-index names in ascending numeric order, then the other names in
      insertion order).  Where the program reads [o[k]] to see whether the
      name is there, the members that every object inherits
      ([constructor], [__proto__], ...) are found too, and the model says
      what the program does with them.
    - The engine is described in the environment the language sets up.  A
      call that changes a prototype (a text with the word [__proto__] gives
      [Object.prototype] an enumerable property [count]) leaves that
      environment: the model records it ([env]) and describes neither what
      the fields hold from then on nor what [match] answers.
    - The array literal [[]] that [match] uses as a map is modelled as an
      array: an assignment to an array-index name stores an element, an
      assignment to [length] resizes the array, and [length] is not
      enumerated.
    - [null] and [undefined] are [None]; a supplied string is [Some s].
    - The language is the one of the current standard: [splice] with one
      argument removes up to the end of the array, and [sort] keeps elements
      that compare equal in their order. *)

From Stdlib Require Import String Ascii List ZArith NArith Bool Lia Arith.
From Stdlib Require Import Permutation Sorted.
Import ListNotations.

Local Open Scope string_scope.
Local Open Scope list_scope.

(** ** Strings *)

Module Str.

Definition code (c : ascii) : N := N_of_ascii c.

Definition between (lo hi n : N) : bool := ((lo <=? n) && (n <=? hi))%N.

(** [String.prototype.toLowerCase] on one Latin-1 code unit. *)
Definition lower_char (c : ascii) : ascii :=
  let n := code c in
  if between 65 90 n || (between 192 222 n && negb (n =? 215)%N)
  then ascii_of_N (n + 32) else c.

Fixpoint toLowerCase (s : string) : string :=
  match s with
  | EmptyString => EmptyString
  | String c s' => String (lower_char c) (toLowerCase s')
  end.

(** The class [\s] restricted to Latin-1: TAB, LF, VT, FF, CR, SP, NBSP. *)
Definition is_space (c : ascii) : bool :=
  let n := code c in between 9 13 n || (n =? 32)%N || (n =? 160)%N.

(** A code unit the pattern [/[^a-z0-9_\-\s]/gi] leaves in place. *)
Definition is_kept (c : ascii) : bool :=
  let n := code c in
  between 97 122 n || between 65 90 n || between 48 57 n
  || (n =? 95)%N || (n =? 45)%N || is_space c.

Fixpoint filter (f : ascii -> bool) (s : string) : string :=
  match s with
  | EmptyString => EmptyString
  | String c s' => if f c then String c (filter f s') else filter f s'
  end.

Fixpoint trim_left (s : string) : string :=
  match s with
  | EmptyString => EmptyString
  | String c s' => if is_space c then trim_left s' else s
  end.

(** Drops the trailing white space: a code unit is kept when it is not white
    space or when something is kept after it. *)
Fixpoint trim_right (s : string) : string :=
  match s with
  | EmptyString => EmptyString
  | String c s' =>
      match trim_right s' with
      | EmptyString => if is_space c then EmptyString else String c EmptyString
      | r => String c r
      end
  end.

(** Modelled from the spec: jQuery's [$.trim], a library function that is not
    part of the repository ("Trims leading/trailing whitespace");
    [String.prototype.trim] removes the same code units. *)
Definition trim (s : string) : string := trim_right (trim_left s).

(** [s.split(sep)] for a separator of one code unit. *)
Fixpoint split (sep : ascii) (s : string) : list string :=
  match s with
  | EmptyString => [EmptyString]
  | String c s' =>
      if Ascii.eqb c sep then EmptyString :: split sep s'
      else match split sep s' with
           | [] => [String c EmptyString]
           | w :: ws => String c w :: ws
           end
  end.

Fixpoint drop (n : nat) (s : string) : string :=
  match n, s with
  | O, _ => s
  | S _, EmptyString => EmptyString
  | S n', String _ s' => drop n' s'
  end.

(** Position of the first occurrence of [w] in [s], counted from [pos], or
    [-1]. *)
Fixpoint search (w s : string) (pos : nat) : Z :=
  if String.prefix w s then Z.of_nat pos
  else match s with
       | EmptyString => (-1)%Z
       | String _ s' => search w s' (S pos)
       end.

(** [s.indexOf(w, start)]; the start position is clamped to the length. *)
Definition indexOf (s w : string) (start : nat) : Z :=
  let start := Nat.min start (String.length s) in
  search w (drop start s) start.

End Str.

(** ** Objects used as maps *)

Module JsObj.

Definition t (V : Type) : Type := list (string * V).

Definition digit (c : ascii) : option N :=
  let n := Str.code c in
  if Str.between 48 57 n then Some (n - 48)%N else None.

Fixpoint parse_digits (s : string) (acc : N) : option N :=
  match s with
  | EmptyString => Some acc
  | String c s' =>
      match digit c with
      | Some d => parse_digits s' (10 * acc + d)%N
      | None => None
      end
  end.

(** A property name is an array index when it is the canonical decimal
    numeral of an integer below 2^32 - 1. *)
Definition array_index (k : string) : option N :=
  match k with
  | EmptyString => None
  | String c s' =>
      if Ascii.eqb c "0" && negb (String.eqb s' EmptyString) then None
      else match parse_digits k 0 with
           | Some n => if (n <? 4294967295)%N then Some n else None
           | None => None
           end
  end.

(** The names of the members that every object inherits from
    [Object.prototype]; the value of each is a function or an object, so
    [o[k]] passes the test [if (o[k])] for each of them. *)
Definition Object_prototype : list string :=
  ["constructor"; "__defineGetter__"; "__defineSetter__"; "hasOwnProperty";
   "__lookupGetter__"; "__lookupSetter__"; "isPrototypeOf";
   "propertyIsEnumerable"; "toString"; "valueOf"; "__proto__";
   "toLocaleString"].

Definition inherited (k : string) : bool :=
  existsb (String.eqb k) Object_prototype.

Section Ops.
Context {V : Type}.

(** [o[k]]: the own property [k]. *)
Fixpoint get (k : string) (o : t V) : option V :=
  match o with
  | [] => None
  | (k', v) :: o' => if String.eqb k k' then Some v else get k o'
  end.

Definition has (k : string) (o : t V) : bool :=
  match get k o with Some _ => true | None => false end.

(** The names in [for .. in] order. *)
Definition names (o : t V) : list string := map fst o.

Fixpoint update (k : string) (v : V) (o : t V) : t V :=
  match o with
  | [] => []
  | (k', v') :: o' =>
      if String.eqb k k' then (k', v) :: o' else (k', v') :: update k v o'
  end.

(** A new array-index name goes before the first name that is not an array
    index or is a greater one. *)
Fixpoint insert_index (n : N) (k : string) (v : V) (o : t V) : t V :=
  match o with
  | [] => [(k, v)]
  | (k', v') :: o' =>
      match array_index k' with
      | Some n' =>
          if (n <? n')%N then (k, v) :: o
          else (k', v') :: insert_index n k v o'
      | None => (k, v) :: o
      end
  end.

(** [o[k] = v]: an existing property keeps its place. *)
Definition set (k : string) (v : V) (o : t V) : t V :=
  if has k o then update k v o
  else match array_index k with
       | Some n => insert_index n k v o
       | None => o ++ [(k, v)]
       end.

(** [delete o[k]]. *)
Definition delete (k : string) (o : t V) : t V :=
  List.filter (fun kv => negb (String.eqb k (fst kv))) o.

End Ops.

End JsObj.

(** ** Arrays used as maps *)

(** How an operation ends: with a value, by throwing [RangeError] or
    [TypeError], or outside the environment that the model describes. *)
Inductive completion (A : Type) : Type :=
| Normal (a : A)
| RangeError
| TypeError
| Outside.
Arguments Normal {A} a.
Arguments RangeError {A}.
Arguments TypeError {A}.
Arguments Outside {A}.

Module JsArray.

(** An array of numbers: its [length] and its enumerable own properties (the
    elements under their array-index names, then the other properties). *)
Record t : Type := mk { length : N; props : JsObj.t N }.

(** [[]] *)
Definition empty : t := mk 0 [].

Definition below (len : N) (kv : string * N) : bool :=
  match JsObj.array_index (fst kv) with
  | Some n => (n <? len)%N
  | None => true
  end.

(** [a[k] = v].  The name [length] resizes the array (elements at or beyond
    the new length are deleted; a value that is not below 2^32 throws); an
    array index stores an element and may extend the length. *)
Definition set (k : string) (v : N) (a : t) : completion t :=
  if String.eqb k "length" then
    if (v <? 4294967296)%N
    then Normal (mk v (List.filter (below v) (props a)))
    else RangeError
  else
    match JsObj.array_index k with
    | Some n =>
        Normal (mk (N.max (length a) (n + 1)) (JsObj.set k v (props a)))
    | None => Normal (mk (length a) (JsObj.set k v (props a)))
    end.

End JsArray.

(** ** The engine *)

Module IndexRecord.
(** What [_index] records for a word. *)
Record t : Type := mk { weight : Z; count : Z }.
End IndexRecord.

Module WordEntry.
(** An indexed word of the collection. *)
Record t : Type := mk { weight : Z; count : Z; keys : list string }.
End WordEntry.

Module Partial.
(** What [_indexAgainst] records for a word. *)
Record t : Type := mk { orig : string; weight : Z; count : Z }.
End Partial.

(** Whether the prototypes are as the language sets them up ([Standard]), or
    a call has changed one ([Tainted]): [Object.prototype] has got the
    enumerable property [count], or the store of keys has lost its
    prototype.  What the program does in a changed environment is not
    described: the fields of a tainted engine stand for nothing. *)
Inductive environment : Type :=
| Standard
| Tainted.

(** The fields of an engine, [this.size], [this.collection] and [this.keys],
    and the environment it runs in. *)
Record Jsse : Type := mkJsse {
  size : Z;
  collection : JsObj.t WordEntry.t;
  keys : JsObj.t (option string);
  env : environment
}.

(** [new Jsse()], in the environment of the language. *)
Definition empty : Jsse := mkJsse 0 [] [] Standard.

(** The engine once a call has changed a prototype. *)
Definition tainted (this : Jsse) : Jsse :=
  mkJsse (size this) (collection this) (keys this) Tainted.

(** [this.stop_list], which no call changes. *)
Definition stop_list : list string :=
  ["at"; "to"; "we"; "my"; "as"; "is"; "in"; "am"; "I"; "he"; "she"; "that";
   "the"; "them"; "a"].

(** A key argument that passes the test [if (key)]. *)
Definition given (key : option string) : option string :=
  match key with
  | Some k => if String.eqb k "" then None else Some k
  | None => None
  end.

(** The helper [indexOf(array, item)]: the first position of [item], or
    [-1]. *)
Fixpoint indexOf_from (array : list string) (item : string) (i : Z) : Z :=
  match array with
  | [] => (-1)%Z
  | x :: array' =>
      if String.eqb x item then i else indexOf_from array' item (i + 1)%Z
  end.

Definition indexOf (array : list string) (item : string) : Z :=
  indexOf_from array item 0%Z.

(** The loop of [removeFromArray], for [i] from [n - 1] down to [0];
    [array.splice(i)] keeps the first [i] elements. *)
Fixpoint removeFromArray_loop (n : nat) (array : list string) (item : string)
  : list string :=
  match n with
  | O => array
  | S i =>
      match nth_error array i with
      | Some x =>
          if String.eqb x item
          then removeFromArray_loop i (firstn i array) item
          else removeFromArray_loop i array item
      | None => removeFromArray_loop i array item
      end
  end.

(** The helper [removeFromArray(array, item)], as the array it leaves. *)
Definition removeFromArray (array : list string) (item : string)
  : list string :=
  match array with
  | [] => array
  | _ => removeFromArray_loop (List.length array) array item
  end.

(** [this.normalize(word)]: lower case, only the code units of the pattern,
    no white space around, and nothing at all for a word of the stop list. *)
Definition normalize (word : string) : string :=
  let word := Str.toLowerCase word in
  let word := Str.trim (Str.filter Str.is_kept word) in
  if negb (indexOf stop_list word =? -1)%Z then "" else word.

(** One turn of the loop of [_index], for the word [w] of the text.  For a
    word that names an inherited member, [index[word]] is that member: the
    test [if (index[word])] passes, [count++] is done on the member, and the
    index gets no record. *)
Definition _index_word (index : JsObj.t IndexRecord.t) (w : string)
  : JsObj.t IndexRecord.t :=
  let word := normalize w in
  if (String.length word <? 2)%nat then index
  else match JsObj.get word index with
       | Some r =>
           JsObj.set word
             (IndexRecord.mk (IndexRecord.weight r) (IndexRecord.count r + 1))
             index
       | None =>
           if JsObj.inherited word then index
           else JsObj.set word
                  (IndexRecord.mk (Z.of_nat (String.length word)) 1) index
       end.

(** [this._index(str)]: the words of one text with their weights and
    counts. *)
Definition _index (str : option string) : JsObj.t IndexRecord.t :=
  match str with
  | None => []
  | Some s =>
      if String.eqb s "" then []
      else fold_left _index_word (Str.split " " s) []
  end.

(** Whether [_index(str)] changes a prototype: for the word [__proto__] the
    member on which [count++] is done is [Object.prototype], which so gets
    an enumerable property [count] that every [for .. in] visits from then
    on.  (For the word [constructor] the member is the function [Object];
    its new property [count] is read by nothing.) *)
Definition taints (str : option string) : bool :=
  match str with
  | None => false
  | Some s =>
      existsb (String.eqb "__proto__") (map normalize (Str.split " " s))
  end.

(** One turn of the loop of [_merge]: a word the collection has is counted
    once more and gets the key; a new word comes in with the record of the
    index, and [size] goes up. *)
Definition _merge_word (key : option string) (this : Jsse)
  (wr : string * IndexRecord.t) : Jsse :=
  let (word, r) := wr in
  match JsObj.get word (collection this) with
  | Some e =>
      let count := (WordEntry.count e + 1)%Z in
      let keys' :=
        match given key with
        | Some k => WordEntry.keys e ++ [k]
        | None => WordEntry.keys e
        end in
      mkJsse (size this)
        (JsObj.set word (WordEntry.mk (WordEntry.weight e) count keys')
           (collection this))
        (keys this) (env this)
  | None =>
      let keys' := match given key with Some k => [k] | None => [] end in
      mkJsse (size this + 1)
        (JsObj.set word
           (WordEntry.mk (IndexRecord.weight r) (IndexRecord.count r) keys')
           (collection this))
        (keys this) (env this)
  end.

(** [this._merge(index, key)].  In the environment of the language the loop
    visits the records of the index and nothing else, and no word of an
    index names an inherited member, so that [collection[word]] is an entry
    of the Collection or nothing. *)
Definition _merge (index : JsObj.t IndexRecord.t) (key : option string)
  (this : Jsse) : Jsse :=
  fold_left (_merge_word key) index this.

(** One turn of the loop of [_remove]: a word the collection has is counted
    once less and loses the key; at count 0 it is deleted, and [size] goes
    down. *)
Definition _remove_word (key : option string) (this : Jsse)
  (wr : string * IndexRecord.t) : Jsse :=
  let (word, _) := wr in
  match JsObj.get word (collection this) with
  | Some e =>
      let count := (WordEntry.count e - 1)%Z in
      let keys' :=
        match given key with
        | Some k => removeFromArray (WordEntry.keys e) k
        | None => WordEntry.keys e
        end in
      if (count =? 0)%Z
      then mkJsse (size this - 1) (JsObj.delete word (collection this))
             (keys this) (env this)
      else mkJsse (size this)
             (JsObj.set word (WordEntry.mk (WordEntry.weight e) count keys')
                (collection this))
             (keys this) (env this)
  | None => this
  end.

(** [this._remove(index, key)], with the same loop. *)
Definition _remove (index : JsObj.t IndexRecord.t) (key : option string)
  (this : Jsse) : Jsse :=
  fold_left (_remove_word key) index this.

(** [this.keys[key] = str].  The name [__proto__] is the inherited accessor:
    the assignment stores no entry; it does nothing for a string, and for
    [null] it takes the prototype of the store away.  ([undefined], which is
    [None] too, is ignored by the accessor; the model does not tell the two
    apart and describes neither.) *)
Definition store_key (k : string) (str : option string) (this : Jsse)
  : Jsse :=
  if String.eqb k "__proto__"
  then match str with Some _ => this | None => tainted this end
  else mkJsse (size this) (collection this) (JsObj.set k str (keys this))
         (env this).

(** [this.add(str, key)] *)
Definition add (str key : option string) (this : Jsse) : Jsse :=
  let this :=
    match given key with
    | Some k => store_key k str this
    | None => this
    end in
  let this := if taints str then tainted this else this in
  _merge (_index str) key this.

(** [this.remove(str, key)] *)
Definition remove (str key : option string) (this : Jsse) : Jsse :=
  if (size this =? 0)%Z then this
  else
    let this := if taints str then tainted this else this in
    let this := _remove (_index str) key this in
    match given key with
    | Some k =>
        mkJsse (size this) (collection this) (JsObj.delete k (keys this))
          (env this)
    | None => this
    end.

(** [this.clear()] *)
Definition clear (this : Jsse) : Jsse :=
  mkJsse 0 [] (keys this) (env this).

(** [this.getWords()]; in the environment of the language its loop visits
    the words of the Collection and nothing else. *)
Definition getWords (this : Jsse) : list string :=
  JsObj.names (collection this).

(** The inner loop of [_indexAgainst]: every partial that [word] starts with
    overwrites the record of [word]. *)
Definition _indexAgainst_partial (word : string) (index : JsObj.t Partial.t)
  (pr : string * IndexRecord.t) : JsObj.t Partial.t :=
  let (partial, _) := pr in
  if (Str.indexOf word partial 0 =? 0)%Z
  then JsObj.set word
         (Partial.mk partial (Z.of_nat (String.length partial)) 1) index
  else index.

(** One turn of the outer loop of [_indexAgainst], for a word of the
    collection. *)
Definition _indexAgainst_word (index_tmp : JsObj.t IndexRecord.t)
  (index : JsObj.t Partial.t) (we : string * WordEntry.t)
  : JsObj.t Partial.t :=
  fold_left (_indexAgainst_partial (fst we)) index_tmp index.

(** One turn of the first loop of [_indexAgainst]: a word of the query
    enters the expansion under its own tag. *)
Definition _indexAgainst_seed (index : JsObj.t Partial.t)
  (wr : string * IndexRecord.t) : JsObj.t Partial.t :=
  let (word, record) := wr in
  JsObj.set word
    (Partial.mk word (IndexRecord.weight record) (IndexRecord.count record))
    index.

(** [this._indexAgainst(str)]; in the environment of the language its loops
    visit the records of the index and the words of the Collection and
    nothing else. *)
Definition _indexAgainst (str : option string) (this : Jsse)
  : JsObj.t Partial.t :=
  let index_tmp := _index str in
  let index := fold_left _indexAgainst_seed index_tmp [] in
  fold_left (_indexAgainst_word index_tmp) (collection this) index.

(** The [while] loop of [_nb_keywords_found]; every turn moves [start] past
    an occurrence, so [fuel] turns are enough when [fuel] exceeds the length
    of [string]. *)
Fixpoint count_from (fuel : nat) (string word : String.string) (start : nat)
  (nb_found : N) : N :=
  match fuel with
  | O => nb_found
  | S fuel' =>
      let at_ := Str.indexOf string word start in
      if (at_ >? -1)%Z
      then count_from fuel' string word
             (Z.to_nat at_ + String.length word) (nb_found + 1)%N
      else nb_found
  end.

(** One turn of the loop of [_nb_keywords_found], for a word of the
    query. *)
Definition _nb_keywords_word (string : String.string) (nb_found : N)
  (w : String.string) : N :=
  let word := Str.trim w in
  if String.eqb word "" then nb_found
  else count_from (S (String.length string)) string word 0 nb_found.

(** [this._nb_keywords_found(key, words)] *)
Definition _nb_keywords_found (key words : String.string) (this : Jsse)
  : N :=
  let arr_words := Str.split " " words in
  match JsObj.get key (keys this) with
  | Some (Some string) =>
      if String.eqb string "" then 0%N
      else
        let nb_found := fold_left (_nb_keywords_word string) arr_words 0%N in
        if String.eqb words string then (nb_found ^ 2)%N else nb_found
  | _ => 0%N
  end.

(** [Array.prototype.sort] with the comparison [y.value - x.value]: by falling
    value, elements of equal value staying in their order. *)
Fixpoint sort_insert (x : string * N) (l : list (string * N))
  : list (string * N) :=
  match l with
  | [] => [x]
  | y :: l' =>
      if (snd y <=? snd x)%N then x :: l else y :: sort_insert x l'
  end.

(** [this._sort_assoc_array(keys)] *)
Definition _sort_assoc_array (keys : JsArray.t) : list (string * N) :=
  fold_right sort_insert [] (JsArray.props keys).

(** The number [size] of query words that [match] counts. *)
Definition match_size (index : JsObj.t Partial.t) : Z :=
  fold_left
    (fun size (wr : string * Partial.t) =>
       if String.eqb (fst wr) (Partial.orig (snd wr))
       then (size + 1)%Z else size)
    index 0%Z.

(** A loop whose body may throw: the first turn that does not end with a
    value ends the loop. *)
Fixpoint loop {A B : Type} (body : A -> B -> completion A) (l : list B)
  (a : A) : completion A :=
  match l with
  | [] => Normal a
  | b :: l' =>
      match body a b with
      | Normal a' => loop body l' a'
      | RangeError => RangeError
      | TypeError => TypeError
      | Outside => Outside
      end
  end.

(** One turn of the loop over [found.keys]: the key is noted with the query
    word [orig], once.  For a key that is not noted yet and names an
    inherited member, [keys[key]] is that member: the test [if (keys[key])]
    passes, the helper [indexOf] finds nothing in it and answers [-1], and
    [keys[key].push(orig)] calls [undefined], which throws. *)
Definition match_key (orig : string) (keys : JsObj.t (list string))
  (key : string) : completion (JsObj.t (list string)) :=
  match JsObj.get key keys with
  | Some origs =>
      if (indexOf origs orig =? -1)%Z
      then Normal (JsObj.set key (origs ++ [orig]) keys)
      else Normal keys
  | None =>
      if JsObj.inherited key then TypeError
      else Normal (JsObj.set key [orig] keys)
  end.

(** One turn of the loop of [match] over the expansion. *)
Definition match_word (this : Jsse) (keys : JsObj.t (list string))
  (wr : string * Partial.t) : completion (JsObj.t (list string)) :=
  match JsObj.get (fst wr) (collection this) with
  | Some found =>
      loop (match_key (Partial.orig (snd wr))) (WordEntry.keys found) keys
  | None => Normal keys
  end.

(** The keys matching any word, each with the query words it matches. *)
Definition match_keys (index : JsObj.t Partial.t) (this : Jsse)
  : completion (JsObj.t (list string)) :=
  loop (match_word this) index [].

(** The answer of [match] in mode all: the keys that match [size] query
    words. *)
Definition match_all (keys : JsObj.t (list string)) (size : Z)
  : list string :=
  map fst
    (List.filter
       (fun kl : string * list string =>
          (Z.of_nat (List.length (snd kl)) =? size)%Z)
       keys).

(** The loop that stores the score of every key in the array
    [nb_keywords]. *)
Fixpoint match_nb_keywords (str : string) (this : Jsse) (keys : list string)
  (nb_keywords : JsArray.t) : completion JsArray.t :=
  match keys with
  | [] => Normal nb_keywords
  | key :: keys' =>
      match JsArray.set key (_nb_keywords_found key str this) nb_keywords with
      | Normal nb_keywords' => match_nb_keywords str this keys' nb_keywords'
      | RangeError => RangeError
      | TypeError => TypeError
      | Outside => Outside
      end
  end.

(** The answer of [match] in mode any: the keys by falling score. *)
Definition match_any (str : string) (keys : JsObj.t (list string))
  (this : Jsse) : completion (list string) :=
  match match_nb_keywords str this (JsObj.names keys) JsArray.empty with
  | Normal nb_keywords => Normal (map fst (_sort_assoc_array nb_keywords))
  | RangeError => RangeError
  | TypeError => TypeError
  | Outside => Outside
  end.

(** [this.match(str, mode)], with the engine it leaves behind.  The only
    write of [match] outside its own variables is the one of [_index], which
    [_indexAgainst] calls on the query: a query with the word [__proto__]
    changes [Object.prototype], and the answer is then outside the model, as
    it is when the environment was changed before.  The loop over the keys
    runs, and may throw, before the mode is looked at.  A query that is
    [null] matches no key, so the text handed on for scoring is never
    [null]. *)
Definition match_ (str mode : option string) (this : Jsse)
  : completion (list string) * Jsse :=
  let mode := match given mode with Some m => m | None => "all" end in
  if taints str then (Outside, tainted this)
  else
    match env this with
    | Tainted => (Outside, this)
    | Standard =>
        let index := _indexAgainst str this in
        let size := match_size index in
        match match_keys index this with
        | Normal keys =>
            if String.eqb mode "all"
            then (Normal (match_all keys size), this)
            else (match_any (match str with Some s => s | None => "" end)
                    keys this,
                  this)
        | RangeError => (RangeError, this)
        | TypeError => (TypeError, this)
        | Outside => (Outside, this)
        end
    end.

(** The loop of [match] over the keys when it meets no inherited name: the
    same turns without the throw. *)
Definition match_key_own (orig : string) (keys : JsObj.t (list string))
  (key : string) : JsObj.t (list string) :=
  match JsObj.get key keys with
  | Some origs =>
      if (indexOf origs orig =? -1)%Z
      then JsObj.set key (origs ++ [orig]) keys
      else keys
  | None => JsObj.set key [orig] keys
  end.

Definition match_word_own (this : Jsse) (keys : JsObj.t (list string))
  (wr : string * Partial.t) : JsObj.t (list string) :=
  match JsObj.get (fst wr) (collection this) with
  | Some found =>
      fold_left (match_key_own (Partial.orig (snd wr)))
        (WordEntry.keys found) keys
  | None => keys
  end.

Definition match_keys_own (index : JsObj.t Partial.t) (this : Jsse)
  : JsObj.t (list string) :=
  fold_left (match_word_own this) index [].

(** Whether the turn of the loop of [match] for a record of the expansion
    meets a key that names an inherited member. *)
Definition meets_inherited (this : Jsse) (wr : string * Partial.t) : bool :=
  match JsObj.get (fst wr) (collection this) with
  | Some found => existsb JsObj.inherited (WordEntry.keys found)
  | None => false
  end.

(** No key found so far names an inherited member. *)
Definition own_names (keys : JsObj.t (list string)) : Prop :=
  Forall (fun k => JsObj.inherited k = false) (JsObj.names keys).

(** No key under a word of the Collection names an inherited member. *)
Definition plain_keys (this : Jsse) : bool :=
  forallb
    (fun we : string * WordEntry.t =>
       negb (existsb JsObj.inherited (WordEntry.keys (snd we))))
    (collection this).

(** ** Histories of calls *)

(** A call of the public interface. *)
Inductive call : Type :=
| Add (str key : option string)
| Remove (str key : option string)
| Match (str mode : option string)
| Clear.

Definition run (c : call) (this : Jsse) : Jsse :=
  match c with
  | Add str key => add str key this
  | Remove str key => remove str key this
  | Match str mode => snd (match_ str mode this)
  | Clear => clear this
  end.

(** The engines that calls can make of a new one. *)
Inductive reachable : Jsse -> Prop :=
| reachable_new : reachable empty
| reachable_run (c : call) (this : Jsse) :
    reachable this -> reachable (run c this).

(** No word is listed twice, [size] counts the words, and every word has been
    contributed at least once. *)
Definition consistent (this : Jsse) : Prop :=
  NoDup (getWords this)
  /\ size this = Z.of_nat (List.length (getWords this))
  /\ Forall (fun we : string * WordEntry.t => (1 <= WordEntry.count (snd we))%Z)
       (collection this).

(** [k] is no key of the store and is attached to no word of [index] that the
    collection holds. *)
Definition key_unused (k : string) (index : JsObj.t IndexRecord.t)
  (this : Jsse) : bool :=
  negb (JsObj.has k (keys this))
  && forallb
       (fun wr : string * IndexRecord.t =>
          match JsObj.get (fst wr) (collection this) with
          | Some e => negb (existsb (String.eqb k) (WordEntry.keys e))
          | None => true
          end)
       index.

(** Every word of [index] that the collection lacks was counted once. *)
Definition new_words_once (index : JsObj.t IndexRecord.t) (this : Jsse)
  : bool :=
  forallb
    (fun wr : string * IndexRecord.t =>
       match JsObj.get (fst wr) (collection this) with
       | Some _ => true
       | None => (IndexRecord.count (snd wr) =? 1)%Z
       end)
    index.

(** The key of a call, when one is supplied, is unused. *)
Definition fresh_for (key : option string) (index : JsObj.t IndexRecord.t)
  (this : Jsse) : bool :=
  match given key with
  | Some k => key_unused k index this
  | None => true
  end.

(** [k] is attached to some word of the Collection. *)
Definition uses_key (k : string) (this : Jsse) : bool :=
  existsb
    (fun we : string * WordEntry.t =>
       existsb (String.eqb k) (WordEntry.keys (snd we)))
    (collection this).

(** No token is a proper prefix of another. *)
Definition prefix_free (tokens : list string) : bool :=
  forallb
    (fun p =>
       forallb (fun t => implb (String.prefix p t) (String.eqb p t)) tokens)
    tokens.

(** The records of the expansion that keep their own name as tag are the
    records of the tokens. *)
Definition seeds_tagged (tokens : list string) (index : JsObj.t Partial.t)
  : Prop :=
  Forall
    (fun wp : string * Partial.t =>
       String.eqb (fst wp) (Partial.orig (snd wp))
       = existsb (String.eqb (fst wp)) tokens)
    index.

Definition has_space (s : string) : bool :=
  existsb (Ascii.eqb " ") (list_ascii_of_string s).

(** Every word of an index was counted at least once. *)
Definition counted (index : JsObj.t IndexRecord.t) : Prop :=
  Forall
    (fun wr : string * IndexRecord.t => (1 <= IndexRecord.count (snd wr))%Z)
    index.

(** The elements of [l] in front of the first [item]. *)
Fixpoint before (item : string) (l : list string) : list string :=
  match l with
  | [] => []
  | x :: l' => if String.eqb x item then [] else x :: before item l'
  end.

(** A text that is [null] or empty. *)
Definition blank (str : option string) : bool :=
  match str with
  | None => true
  | Some s => String.eqb s ""
  end.

Fixpoint distinct (l : list string) : list string :=
  match l with
  | [] => []
  | x :: l' =>
      if existsb (String.eqb x) l' then distinct l' else x :: distinct l'
  end.

(** In the words of the specification: the distinct, non-empty normalized
    tokens of a query that have a length of 2 or more.  The engine is not
    consulted. *)
Definition query_tokens (str : string) : list string :=
  distinct
    (List.filter (fun w => (2 <=? String.length w)%nat)
       (map normalize (Str.split " " str))).

(** What the expansion of the one-word query [P] looks like at any time of
    the loop over the Collection. *)
Definition expansion_of (P : string) (index : JsObj.t Partial.t) : Prop :=
  NoDup (JsObj.names index)
  /\ In P (JsObj.names index)
  /\ Forall (fun wr : string * Partial.t => Partial.orig (snd wr) = P) index.

(** Every key found so far matches the one query word [P]. *)
Definition tagged (P : string) (keys : JsObj.t (list string)) : Prop :=
  Forall (fun kl : string * list string => snd kl = [P]) keys.

(** The entry of a word after [_merge] has seen it, from the entry [old] it
    had, if any. *)
Definition merged (key : option string) (r : IndexRecord.t)
  (old : option WordEntry.t) : WordEntry.t :=
  match old with
  | Some e =>
      WordEntry.mk (WordEntry.weight e) (WordEntry.count e + 1)
        match given key with
        | Some k => WordEntry.keys e ++ [k]
        | None => WordEntry.keys e
        end
  | None =>
      WordEntry.mk (IndexRecord.weight r) (IndexRecord.count r)
        match given key with Some k => [k] | None => [] end
  end.

(** The entry of a word after [_remove] has seen it, if it is still there. *)
Definition removed (key : option string) (e : WordEntry.t)
  : option WordEntry.t :=
  if (WordEntry.count e - 1 =? 0)%Z then None
  else Some
         (WordEntry.mk (WordEntry.weight e) (WordEntry.count e - 1)
            match given key with
            | Some k => removeFromArray (WordEntry.keys e) k
            | None => WordEntry.keys e
            end).

(** ** Engines of the examples *)

Definition the_quote : Jsse :=
  add (Some "Instant search in Google is awesome!") (Some "quote") empty.

Definition the_instruction : Jsse :=
  add (Some "It will work fine after you install that patch.")
    (Some "instruction") the_quote.

(** One word under two keys. *)
Definition foo_twice : Jsse :=
  add (Some "foo") (Some "b") (add (Some "foo") (Some "a") empty).

(** Two texts whose words share the prefix "ab". *)
Definition abc_abd : Jsse :=
  add (Some "abd") (Some "k2") (add (Some "abc") (Some "k1") empty).

(** A text under the key "length". *)
Definition hello_length : Jsse := add (Some "hello") (Some "length") empty.


(** ** Notions for the properties of the helpers *)

(** A code unit that a normalized word can hold: a lower-case letter, a digit,
    an underscore, a hyphen or white space. *)
Definition is_word_char (c : ascii) : bool :=
  let n := Str.code c in
  Str.between 97 122 n || Str.between 48 57 n
  || (n =? 95)%N || (n =? 45)%N || Str.is_space c.

Definition all_chars (f : ascii -> bool) (s : string) : bool :=
  forallb f (list_ascii_of_string s).

(** The first code unit of [s], if any, is not white space. *)
Definition first_clean (s : string) : bool :=
  match s with
  | EmptyString => true
  | String c _ => negb (Str.is_space c)
  end.

(** The last code unit of [s], if any, is not white space. *)
Fixpoint last_clean (s : string) : bool :=
  match s with
  | EmptyString => true
  | String c s' =>
      match s' with
      | EmptyString => negb (Str.is_space c)
      | String _ _ => last_clean s'
      end
  end.

Definition clean_ends (s : string) : bool := first_clean s && last_clean s.

(** How often [w] is in [l]. *)
Definition occurrences (w : string) (l : list string) : nat :=
  List.length (List.filter (String.eqb w) l).

(** The words of a text as [_index] sees them: split at the spaces, each
    normalized. *)
Definition normalized_words (s : string) : list string :=
  map normalize (Str.split " " s).

(** The record of a word that occurs [n] times, if it is long enough, does
    not name an inherited member and occurs at all. *)
Definition index_entry (w : string) (n : nat) : option IndexRecord.t :=
  if (2 <=? String.length w)%nat && negb (JsObj.inherited w) && (0 <? n)%nat
  then Some (IndexRecord.mk (Z.of_nat (String.length w)) (Z.of_nat n))
  else None.

(** An entry of the Collection as calls leave it: the word is normalized, has
    no space and two code units or more and does not name an inherited
    member, its weight is its length and its count is 1 or more. *)
Definition entry_ok (we : string * WordEntry.t) : Prop :=
  normalize (fst we) = fst we
  /\ has_space (fst we) = false
  /\ (2 <= String.length (fst we))%nat
  /\ JsObj.inherited (fst we) = false
  /\ WordEntry.weight (snd we) = Z.of_nat (String.length (fst we))
  /\ (1 <= WordEntry.count (snd we))%Z.

(** The same of a record of an index. *)
Definition record_ok (wr : string * IndexRecord.t) : Prop :=
  normalize (fst wr) = fst wr
  /\ has_space (fst wr) = false
  /\ (2 <= String.length (fst wr))%nat
  /\ JsObj.inherited (fst wr) = false
  /\ IndexRecord.weight (snd wr) = Z.of_nat (String.length (fst wr))
  /\ (1 <= IndexRecord.count (snd wr))%Z.

(** The order in which [_sort_assoc_array] leaves two entries. *)
Definition falling (x y : string * N) : Prop := (snd y <= snd x)%N.

(** The text that [match] hands on for scoring. *)
Definition scored_text (str : option string) : string :=
  match str with Some s => s | None => "" end.

(** The order of two keys by their scores for the query [str]. *)
Definition falling_score (str : option string) (this : Jsse) (k k' : string)
  : Prop :=
  (_nb_keywords_found k' (scored_text str) this
   <= _nb_keywords_found k (scored_text str) this)%N.

(** Whether [remove(str, key)] leaves the word [w] in the Collection: it
    deletes the words of the text whose count it brings to 0, unless the size
    is 0. *)
Definition stays (str : option string) (this : Jsse) (w : string) : bool :=
  if (size this =? 0)%Z then true
  else match JsObj.get w (_index str), JsObj.get w (collection this) with
       | Some _, Some e => negb (WordEntry.count e - 1 =? 0)%Z
       | _, _ => true
       end.

(** A record of the expansion is tagged with a token of the query that the
    word of the record starts with. *)
Definition from_token (tokens : list string) (wp : string * Partial.t)
  : Prop :=
  In (Partial.orig (snd wp)) tokens
  /\ String.prefix (Partial.orig (snd wp)) (fst wp) = true.

(** No word of the Collection starts with a token of the query. *)
Definition no_match (str : option string) (this : Jsse) : bool :=
  forallb
    (fun we : string * WordEntry.t =>
       forallb
         (fun pr : string * IndexRecord.t =>
            negb (String.prefix (fst pr) (fst we)))
         (_index str))
    (collection this).

(** The mode is not "all". *)
Definition any_mode (mode : option string) : bool :=
  negb (String.eqb match given mode with Some m => m | None => "all" end
          "all").

(** An entry of the array of scores holds the score of its key. *)
Definition scored (str : option string) (this : Jsse) (kv : string * N)
  : Prop :=
  snd kv = _nb_keywords_found (fst kv) (scored_text str) this.

(** The Collection holds no word of the text. *)
Definition unknown_words (str : option string) (this : Jsse) : bool :=
  forallb
    (fun wr : string * IndexRecord.t =>
       negb (JsObj.has (fst wr) (collection this)))
    (_index str).

(** ** Facts about objects *)

Section JsObjFacts.
Context {V : Type}.
Implicit Types (o : JsObj.t V) (k : string) (v : V).

Lemma get_update_other k k' v o :
  k' <> k -> JsObj.get k' (JsObj.update k v o) = JsObj.get k' o.
Proof.
  intros Hne. induction o as [|[k0 v0] o IH]; simpl; [reflexivity|].
  destruct (String.eqb_spec k k0) as [->|Hk]; simpl.
  - destruct (String.eqb_spec k' k0); [contradiction|reflexivity].
  - destruct (String.eqb_spec k' k0); [reflexivity|exact IH].
Qed.

Lemma get_update_same k v o :
  JsObj.has k o = true -> JsObj.get k (JsObj.update k v o) = Some v.
Proof.
  unfold JsObj.has. induction o as [|[k0 v0] o IH]; simpl; [discriminate|].
  destruct (String.eqb_spec k k0) as [->|Hk]; simpl.
  - now rewrite String.eqb_refl.
  - destruct (String.eqb_spec k k0); [contradiction|exact IH].
Qed.

Lemma get_insert_index n k k' v o :
  JsObj.get k o = None ->
  JsObj.get k' (JsObj.insert_index n k v o)
  = if String.eqb k' k then Some v else JsObj.get k' o.
Proof.
  induction o as [|[k0 v0] o IH]; simpl; [reflexivity|].
  destruct (String.eqb_spec k k0) as [->|Hk]; [discriminate|]. intros Hnone.
  destruct (JsObj.array_index k0) as [n0|]; [|reflexivity].
  destruct (n <? n0)%N; [reflexivity|]. simpl. rewrite (IH Hnone).
  destruct (String.eqb_spec k' k0) as [->|]; [|reflexivity].
  destruct (String.eqb_spec k0 k) as [->|]; [contradiction|reflexivity].
Qed.

Lemma get_app k o o' :
  JsObj.get k (o ++ o')
  = match JsObj.get k o with Some v => Some v | None => JsObj.get k o' end.
Proof.
  induction o as [|[k0 v0] o IH]; simpl; [reflexivity|].
  destruct (String.eqb k k0); [reflexivity|exact IH].
Qed.

Lemma get_set_same k v o : JsObj.get k (JsObj.set k v o) = Some v.
Proof.
  unfold JsObj.set. destruct (JsObj.has k o) eqn:Hhas.
  - now apply get_update_same.
  - assert (Hnone : JsObj.get k o = None).
    { unfold JsObj.has in Hhas. destruct (JsObj.get k o); [discriminate|easy]. }
    destruct (JsObj.array_index k).
    + rewrite get_insert_index by exact Hnone. now rewrite String.eqb_refl.
    + rewrite get_app, Hnone. simpl. now rewrite String.eqb_refl.
Qed.

Lemma get_set_other k k' v o :
  k' <> k -> JsObj.get k' (JsObj.set k v o) = JsObj.get k' o.
Proof.
  intros Hne. unfold JsObj.set. destruct (JsObj.has k o) eqn:Hhas.
  - now apply get_update_other.
  - assert (Hnone : JsObj.get k o = None).
    { unfold JsObj.has in Hhas. destruct (JsObj.get k o); [discriminate|easy]. }
    destruct (JsObj.array_index k).
    + rewrite get_insert_index by exact Hnone.
      destruct (String.eqb_spec k' k); [contradiction|reflexivity].
    + rewrite get_app. simpl.
      destruct (String.eqb_spec k' k); [contradiction|].
      now destruct (JsObj.get k' o).
Qed.

Lemma get_set k k' v o :
  JsObj.get k' (JsObj.set k v o)
  = if String.eqb k' k then Some v else JsObj.get k' o.
Proof.
  destruct (String.eqb_spec k' k) as [->|Hne].
  - apply get_set_same.
  - now apply get_set_other.
Qed.

Lemma get_delete k k' o :
  JsObj.get k' (JsObj.delete k o)
  = if String.eqb k' k then None else JsObj.get k' o.
Proof.
  unfold JsObj.delete.
  induction o as [|[k0 v0] o IH]; simpl.
  - now destruct (String.eqb k' k).
  - destruct (String.eqb_spec k k0) as [->|Hk]; simpl.
    + rewrite IH. destruct (String.eqb_spec k' k0); reflexivity.
    + rewrite IH. destruct (String.eqb_spec k' k0) as [->|]; [|reflexivity].
      destruct (String.eqb_spec k0 k) as [->|]; [contradiction|reflexivity].
Qed.

Lemma get_none_names k o : JsObj.get k o = None <-> ~ In k (JsObj.names o).
Proof.
  unfold JsObj.names.
  induction o as [|[k0 v0] o IH]; simpl; [tauto|].
  destruct (String.eqb_spec k k0) as [->|Hk].
  - split; [discriminate|intros H; exfalso; apply H; now left].
  - rewrite IH. split; [intros H [E|I]; [now subst|tauto]|tauto].
Qed.

Lemma get_some_names k v o : JsObj.get k o = Some v -> In k (JsObj.names o).
Proof.
  intros Hget. destruct (in_dec string_dec k (JsObj.names o)) as [|Hn];
    [assumption|]. apply get_none_names in Hn. congruence.
Qed.

Lemma get_some_in k v o : JsObj.get k o = Some v -> In (k, v) o.
Proof.
  induction o as [|[k0 v0] o IH]; simpl; [discriminate|].
  destruct (String.eqb_spec k k0) as [->|Hk].
  - intros [= ->]. now left.
  - intros H. right. now apply IH.
Qed.

Lemma in_get_nodup k v o :
  NoDup (JsObj.names o) -> In (k, v) o -> JsObj.get k o = Some v.
Proof.
  unfold JsObj.names.
  induction o as [|[k0 v0] o IH]; simpl; [easy|].
  intros Hnd [[= -> ->]|Hin].
  - now rewrite String.eqb_refl.
  - inversion Hnd as [|? ? Hnotin Hnd']; subst.
    destruct (String.eqb_spec k k0) as [->|Hk]; [|now apply IH].
    exfalso. apply Hnotin. change k0 with (fst (k0, v)). now apply in_map.
Qed.

Lemma names_update k v o : JsObj.names (JsObj.update k v o) = JsObj.names o.
Proof.
  unfold JsObj.names.
  induction o as [|[k0 v0] o IH]; simpl; [reflexivity|].
  destruct (String.eqb k k0); simpl; [reflexivity|now rewrite IH].
Qed.

Lemma names_delete k o :
  JsObj.names (JsObj.delete k o)
  = List.filter (fun k' => negb (String.eqb k k')) (JsObj.names o).
Proof.
  unfold JsObj.names, JsObj.delete.
  induction o as [|[k0 v0] o IH]; simpl; [reflexivity|].
  destruct (String.eqb k k0); simpl; [exact IH|now rewrite IH].
Qed.

Lemma in_names_insert_index n k v o k' :
  In k' (JsObj.names (JsObj.insert_index n k v o))
  <-> k' = k \/ In k' (JsObj.names o).
Proof.
  unfold JsObj.names.
  induction o as [|[k0 v0] o IH]; simpl; [intuition|].
  destruct (JsObj.array_index k0) as [n0|]; [|simpl; intuition].
  destruct (n <? n0)%N; simpl; [intuition|]. rewrite IH. intuition.
Qed.

Lemma in_names_set k v o k' :
  In k' (JsObj.names (JsObj.set k v o)) <-> k' = k \/ In k' (JsObj.names o).
Proof.
  unfold JsObj.set. destruct (JsObj.has k o) eqn:Hhas.
  - rewrite names_update. split; [tauto|]. intros [->|H]; [|exact H].
    unfold JsObj.has in Hhas. destruct (JsObj.get k o) eqn:Hget;
      [|discriminate]. eapply get_some_names; eauto.
  - destruct (JsObj.array_index k).
    + apply in_names_insert_index.
    + unfold JsObj.names. rewrite map_app, in_app_iff. simpl. intuition.
Qed.

Lemma nodup_insert_index n k v o :
  ~ In k (JsObj.names o) -> NoDup (JsObj.names o) ->
  NoDup (JsObj.names (JsObj.insert_index n k v o)).
Proof.
  induction o as [|[k0 v0] o IH]; simpl; intros Hnotin Hnd.
  - constructor; [easy|constructor].
  - destruct (JsObj.array_index k0) as [n0|].
    + destruct (n <? n0)%N; simpl.
      * constructor; assumption.
      * inversion Hnd as [|? ? Hk0 Hnd']; subst. constructor.
        -- rewrite in_names_insert_index. intros [->|H]; [|contradiction].
           apply Hnotin. now left.
        -- apply IH; [|assumption]. intros H. apply Hnotin. now right.
    + simpl. constructor; assumption.
Qed.

Lemma nodup_set k v o :
  NoDup (JsObj.names o) -> NoDup (JsObj.names (JsObj.set k v o)).
Proof.
  intros Hnd. unfold JsObj.set. destruct (JsObj.has k o) eqn:Hhas.
  - now rewrite names_update.
  - assert (Hnotin : ~ In k (JsObj.names o)).
    { apply get_none_names. unfold JsObj.has in Hhas.
      now destruct (JsObj.get k o). }
    destruct (JsObj.array_index k).
    + now apply nodup_insert_index.
    + unfold JsObj.names in *. rewrite map_app. simpl.
      apply NoDup_app; [assumption|constructor; [easy|constructor]|].
      intros x Hx [<-|[]]. contradiction.
Qed.

Lemma nodup_delete k o :
  NoDup (JsObj.names o) -> NoDup (JsObj.names (JsObj.delete k o)).
Proof. intros Hnd. rewrite names_delete. now apply NoDup_filter. Qed.

Lemma length_update k v o :
  List.length (JsObj.update k v o) = List.length o.
Proof.
  induction o as [|[k0 v0] o IH]; simpl; [reflexivity|].
  destruct (String.eqb k k0); simpl; [reflexivity|now rewrite IH].
Qed.

Lemma length_insert_index n k v o :
  List.length (JsObj.insert_index n k v o) = S (List.length o).
Proof.
  induction o as [|[k0 v0] o IH]; simpl; [reflexivity|].
  destruct (JsObj.array_index k0) as [n0|]; [|reflexivity].
  destruct (n <? n0)%N; simpl; [reflexivity|now rewrite IH].
Qed.

Lemma length_set k v o :
  List.length (JsObj.set k v o)
  = if JsObj.has k o then List.length o else S (List.length o).
Proof.
  unfold JsObj.set. destruct (JsObj.has k o).
  - apply length_update.
  - destruct (JsObj.array_index k).
    + apply length_insert_index.
    + rewrite length_app. simpl. lia.
Qed.

Lemma length_delete k v o :
  NoDup (JsObj.names o) -> JsObj.get k o = Some v ->
  S (List.length (JsObj.delete k o)) = List.length o.
Proof.
  unfold JsObj.names, JsObj.delete.
  induction o as [|[k0 v0] o IH]; simpl; [discriminate|].
  intros Hnd Hget. inversion Hnd as [|? ? Hk0 Hnd']; subst.
  destruct (String.eqb_spec k k0) as [->|Hk]; simpl.
  - f_equal. clear IH Hget Hnd Hnd'.
    induction o as [|[k1 v1] o IH]; simpl; [reflexivity|].
    simpl in Hk0. destruct (String.eqb_spec k0 k1) as [->|]; simpl.
    + exfalso. apply Hk0. now left.
    + f_equal. apply IH. intros H. apply Hk0. now right.
  - f_equal. now apply IH.
Qed.

Lemma in_update k v o kv :
  In kv (JsObj.update k v o) -> snd kv = v \/ In kv o.
Proof.
  induction o as [|[k0 v0] o IH]; simpl; [tauto|].
  destruct (String.eqb k k0); simpl.
  - intros [<-|H]; [now left|now right; right].
  - intros [<-|H]; [now right; left|]. destruct (IH H); tauto.
Qed.

Lemma in_insert_index n k v o kv :
  In kv (JsObj.insert_index n k v o) -> kv = (k, v) \/ In kv o.
Proof.
  induction o as [|[k0 v0] o IH]; simpl; [intuition|].
  destruct (JsObj.array_index k0) as [n0|]; [|simpl; intuition].
  destruct (n <? n0)%N; simpl; [intuition|].
  intros [<-|H]; [now right; left|]. destruct (IH H); tauto.
Qed.

Lemma in_set k v o kv : In kv (JsObj.set k v o) -> snd kv = v \/ In kv o.
Proof.
  unfold JsObj.set. destruct (JsObj.has k o).
  - apply in_update.
  - destruct (JsObj.array_index k).
    + intros H. apply in_insert_index in H as [->|H]; [now left|now right].
    + rewrite in_app_iff. simpl. intros [H|[<-|[]]]; [now right|now left].
Qed.

(** A property of the values survives an assignment of a value that has it. *)
Lemma Forall_set (Q : V -> Prop) k v o :
  Forall (fun kv => Q (snd kv)) o -> Q v ->
  Forall (fun kv => Q (snd kv)) (JsObj.set k v o).
Proof.
  rewrite !Forall_forall. intros Ho Hv kv Hin.
  apply in_set in Hin as [->|Hin]; [exact Hv|now apply Ho].
Qed.

Lemma Forall_delete (P : string * V -> Prop) k o :
  Forall P o -> Forall P (JsObj.delete k o).
Proof.
  rewrite !Forall_forall. intros Ho kv Hin.
  apply filter_In in Hin. now apply Ho.
Qed.

End JsObjFacts.

(** An invariant of a loop holds after it. *)
Lemma fold_left_inv {A B : Type} (P : A -> Prop) (f : A -> B -> A)
  (l : list B) (a : A) :
  P a -> (forall a x, In x l -> P a -> P (f a x)) -> P (fold_left f l a).
Proof.
  revert a. induction l as [|x l IH]; simpl; intros a Ha Hstep; [exact Ha|].
  apply IH; [apply Hstep; [now left|exact Ha]|].
  intros a' y Hy. apply Hstep. now right.
Qed.

(** ** The index of one text *)

Lemma _index_word_nodup index w :
  NoDup (JsObj.names index) -> NoDup (JsObj.names (_index_word index w)).
Proof.
  intros Hnd. unfold _index_word.
  destruct (String.length (normalize w) <? 2)%nat; [exact Hnd|].
  destruct (JsObj.get (normalize w) index); [now apply nodup_set|].
  destruct (JsObj.inherited (normalize w)); [exact Hnd|now apply nodup_set].
Qed.

Lemma _index_word_counted index w :
  NoDup (JsObj.names index) -> counted index -> counted (_index_word index w).
Proof.
  intros Hnd Hc. unfold _index_word.
  destruct (String.length (normalize w) <? 2)%nat; [exact Hc|].
  destruct (JsObj.get (normalize w) index) as [r|] eqn:Hget.
  - apply (Forall_set (fun r => (1 <= IndexRecord.count r)%Z)); [exact Hc|].
    simpl. apply get_some_in in Hget. unfold counted in Hc.
    rewrite Forall_forall in Hc. specialize (Hc _ Hget). simpl in Hc. lia.
  - destruct (JsObj.inherited (normalize w)); [exact Hc|].
    apply (Forall_set (fun r => (1 <= IndexRecord.count r)%Z)); [exact Hc|].
    simpl. lia.
Qed.

Lemma _index_wf str : NoDup (JsObj.names (_index str)) /\ counted (_index str).
Proof.
  unfold _index. destruct str as [s|]; [|split; constructor].
  destruct (String.eqb s ""); [split; constructor|].
  apply (fold_left_inv
           (fun index => NoDup (JsObj.names index) /\ counted index)).
  - split; constructor.
  - intros index w _ [Hnd Hc]. split.
    + now apply _index_word_nodup.
    + now apply _index_word_counted.
Qed.

(** ** The invariant of the engine *)

Lemma _merge_word_consistent key this wr :
  (1 <= IndexRecord.count (snd wr))%Z ->
  consistent this -> consistent (_merge_word key this wr).
Proof.
  destruct wr as [word r]. simpl. intros Hr (Hnd & Hsize & Hcount).
  unfold _merge_word, consistent, getWords in *.
  destruct (JsObj.get word (collection this)) as [e|] eqn:Hget; simpl.
  - repeat split.
    + now apply nodup_set.
    + unfold JsObj.names in *. rewrite !length_map in *. rewrite length_set.
      unfold JsObj.has. now rewrite Hget.
    + apply (Forall_set (fun e => (1 <= WordEntry.count e)%Z));
        [exact Hcount|]. simpl.
      apply get_some_in in Hget. rewrite Forall_forall in Hcount.
      specialize (Hcount _ Hget). simpl in Hcount. lia.
  - repeat split.
    + now apply nodup_set.
    + unfold JsObj.names in *. rewrite !length_map in *. rewrite length_set.
      unfold JsObj.has. rewrite Hget. lia.
    + now apply (Forall_set (fun e => (1 <= WordEntry.count e)%Z)).
Qed.

Lemma _merge_consistent index key this :
  counted index -> consistent this -> consistent (_merge index key this).
Proof.
  intros Hc Hthis. unfold _merge. apply fold_left_inv; [exact Hthis|].
  intros a wr Hin Ha. apply _merge_word_consistent; [|exact Ha].
  unfold counted in Hc. rewrite Forall_forall in Hc. now apply Hc.
Qed.

Lemma _remove_word_consistent key this wr :
  consistent this -> consistent (_remove_word key this wr).
Proof.
  destruct wr as [word r]. intros (Hnd & Hsize & Hcount).
  unfold _remove_word, consistent, getWords in *.
  destruct (JsObj.get word (collection this)) as [e|] eqn:Hget;
    [|now repeat split].
  destruct (WordEntry.count e - 1 =? 0)%Z eqn:Hzero; simpl.
  - repeat split.
    + now apply nodup_delete.
    + pose proof (length_delete _ _ _ Hnd Hget) as Hlen.
      unfold JsObj.names in *. rewrite !length_map in *. lia.
    + now apply Forall_delete.
  - repeat split.
    + now apply nodup_set.
    + unfold JsObj.names in *. rewrite !length_map in *. rewrite length_set.
      unfold JsObj.has. now rewrite Hget.
    + apply (Forall_set (fun e => (1 <= WordEntry.count e)%Z));
        [exact Hcount|]. simpl.
      apply get_some_in in Hget. rewrite Forall_forall in Hcount.
      specialize (Hcount _ Hget). simpl in Hcount. lia.
Qed.

Lemma _remove_consistent index key this :
  consistent this -> consistent (_remove index key this).
Proof.
  intros Hthis. unfold _remove. apply fold_left_inv; [exact Hthis|].
  intros a wr _ Ha. now apply _remove_word_consistent.
Qed.

Lemma consistent_keys this ks e :
  consistent this -> consistent (mkJsse (size this) (collection this) ks e).
Proof. intros H. exact H. Qed.

Lemma store_key_fields k str this :
  size (store_key k str this) = size this
  /\ collection (store_key k str this) = collection this.
Proof.
  unfold store_key. destruct (String.eqb k "__proto__"); [|now split].
  destruct str; now split.
Qed.

Lemma stored_consistent str key this :
  consistent this ->
  consistent
    (let this :=
       match given key with
       | Some k => store_key k str this
       | None => this
       end in
     if taints str then tainted this else this).
Proof.
  intros Hthis. cbv zeta.
  assert (H : consistent
                match given key with
                | Some k => store_key k str this
                | None => this
                end).
  { destruct (given key) as [k|]; [|exact Hthis].
    destruct (store_key_fields k str this) as [Hs Hc].
    unfold consistent, getWords. now rewrite Hs, Hc. }
  destruct (taints str); exact H.
Qed.

Lemma add_consistent str key this :
  consistent this -> consistent (add str key this).
Proof.
  intros Hthis. unfold add. apply _merge_consistent; [apply _index_wf|].
  now apply stored_consistent.
Qed.

Lemma remove_consistent str key this :
  consistent this -> consistent (remove str key this).
Proof.
  intros Hthis. unfold remove. destruct (size this =? 0)%Z; [exact Hthis|].
  cbv zeta.
  assert (H : consistent
                (_remove (_index str) key
                   (if taints str then tainted this else this))).
  { apply _remove_consistent. destruct (taints str); exact Hthis. }
  destruct (given key); [now apply consistent_keys|exact H].
Qed.

Lemma clear_consistent this : consistent (clear this).
Proof. repeat split; constructor. Qed.

(** The engine that [match] leaves behind is the one it found, in the
    environment that the query leaves. *)
Lemma match_state str mode this :
  snd (match_ str mode this)
  = if taints str then tainted this else this.
Proof.
  unfold match_. destruct (taints str); [reflexivity|].
  destruct (env this); [|reflexivity].
  destruct (match_keys (_indexAgainst str this) this); try reflexivity.
  destruct (String.eqb
              match given mode with Some m => m | None => "all" end "all");
    reflexivity.
Qed.

Lemma run_consistent c this : consistent this -> consistent (run c this).
Proof.
  intros Hthis. destruct c as [str key|str key|str mode|]; simpl.
  - now apply add_consistent.
  - now apply remove_consistent.
  - rewrite match_state. destruct (taints str); exact Hthis.
  - apply clear_consistent.
Qed.

Lemma reachable_consistent this : reachable this -> consistent this.
Proof.
  induction 1 as [|c this _ IH].
  - repeat split; constructor.
  - now apply run_consistent.
Qed.

(** ** The claims on the invariant, on [match] and on the scenario *)

(** A changed environment stays changed. *)
Lemma _merge_env index key this : env (_merge index key this) = env this.
Proof.
  unfold _merge. apply fold_left_inv; [reflexivity|].
  intros a [w r] _ Ha. unfold _merge_word.
  destruct (JsObj.get w (collection a)); exact Ha.
Qed.

Lemma _remove_env index key this : env (_remove index key this) = env this.
Proof.
  unfold _remove. apply fold_left_inv; [reflexivity|].
  intros a [w r] _ Ha. unfold _remove_word.
  destruct (JsObj.get w (collection a)) as [e|]; [|exact Ha].
  destruct (WordEntry.count e - 1 =? 0)%Z; exact Ha.
Qed.

Lemma store_key_env k str this :
  env this = Tainted -> env (store_key k str this) = Tainted.
Proof.
  intros H. unfold store_key. destruct (String.eqb k "__proto__"); [|exact H].
  destruct str; [exact H|reflexivity].
Qed.

Lemma run_tainted c this : env this = Tainted -> env (run c this) = Tainted.
Proof.
  intros H. destruct c as [str key|str key|str mode|]; simpl.
  - unfold add. rewrite _merge_env.
    destruct (taints str); [reflexivity|].
    destruct (given key); [now apply store_key_env|exact H].
  - unfold remove. destruct (size this =? 0)%Z; [exact H|]. cbv zeta.
    assert (He : env (_remove (_index str) key
                        (if taints str then tainted this else this))
                 = Tainted).
    { rewrite _remove_env. destruct (taints str); [reflexivity|exact H]. }
    destruct (given key); exact He.
  - rewrite match_state. destruct (taints str); [reflexivity|exact H].
  - exact H.
Qed.

Lemma reachable_the_quote : reachable the_quote.
Proof.
  exact (reachable_run
           (Add (Some "Instant search in Google is awesome!") (Some "quote"))
           empty reachable_new).
Qed.

Lemma reachable_the_instruction : reachable the_instruction.
Proof.
  exact (reachable_run
           (Add (Some "It will work fine after you install that patch.")
              (Some "instruction"))
           the_quote reachable_the_quote).
Qed.

Lemma run_standard c this : env (run c this) = Standard -> env this = Standard.
Proof.
  intros H. destruct (env this) eqn:Henv; [reflexivity|].
  rewrite (run_tainted c _ Henv) in H. discriminate.
Qed.

(** In every state reachable from the empty engine by add, remove, match and
    clear without leaving the environment of the language (no text or query
    so far had the word [__proto__], and [null] was not added under the key
    [__proto__]), the size counter equals the number of words of the
    Collection, and no word is listed twice. *)
Theorem reachable_size this :
  reachable this -> env this = Standard ->
  NoDup (getWords this)
  /\ size this = Z.of_nat (List.length (getWords this)).
Proof.
  intros Hreach.
  assert (H : env this = Standard -> consistent this).
  { induction Hreach as [|c this _ IH]; [repeat split; constructor|].
    intros Henv. apply run_consistent, IH, (run_standard c), Henv. }
  intros Henv. destruct (H Henv) as (Hnd & Hsize & _). now split.
Qed.

Lemma reachable_size_witness :
  reachable the_instruction
  /\ env the_instruction = Standard
  /\ NoDup (getWords the_instruction)
  /\ size the_instruction
     = Z.of_nat (List.length (getWords the_instruction)).
Proof.
  pose proof reachable_the_instruction as H.
  assert (He : env the_instruction = Standard) by (vm_compute; reflexivity).
  split; [exact H|]. split; [exact He|].
  exact (reachable_size the_instruction H He).
Defined.



(** C5: from an empty engine, after the two adds of the scenario, match('inst')
    in the default mode returns exactly ['quote', 'instruction']. *)
Theorem scenario_inst :
  fst (match_ (Some "inst") None
         (add (Some "It will work fine after you install that patch.")
            (Some "instruction")
            (add (Some "Instant search in Google is awesome!") (Some "quote")
               empty)))
  = Normal ["quote"; "instruction"].
Proof. vm_compute. reflexivity. Qed.

(** ** Removing a key from the keys of a word *)

Lemma before_absent item l :
  existsb (fun x => String.eqb x item) l = false -> before item l = l.
Proof.
  induction l as [|x l IH]; simpl; [reflexivity|].
  destruct (String.eqb x item); simpl; [discriminate|].
  intros H. now rewrite IH.
Qed.

Lemma before_app_present item l l' :
  existsb (fun x => String.eqb x item) l = true ->
  before item (l ++ l') = before item l.
Proof.
  induction l as [|x l IH]; simpl; [discriminate|].
  destruct (String.eqb x item); simpl; [reflexivity|].
  intros H. now rewrite IH.
Qed.

Lemma before_app_item item l : before item (l ++ [item]) = before item l.
Proof.
  induction l as [|x l IH]; simpl.
  - now rewrite String.eqb_refl.
  - destruct (String.eqb x item); [reflexivity|now rewrite IH].
Qed.

Lemma firstn_succ_nth {A : Type} (l : list A) i x :
  nth_error l i = Some x -> firstn (S i) l = firstn i l ++ [x].
Proof.
  revert i. induction l as [|y l IH]; intros [|i]; simpl; try discriminate.
  - now intros [= ->].
  - intros H. now rewrite <- (IH i H).
Qed.

(** The loop that has still to visit the first [n] elements leaves the
    elements in front of the first [item] among them, or the whole array when
    [item] is not among them. *)
Lemma removeFromArray_loop_spec item n :
  forall array, (n <= List.length array)%nat ->
  removeFromArray_loop n array item
  = if existsb (fun x => String.eqb x item) (firstn n array)
    then before item (firstn n array) else array.
Proof.
  induction n as [|i IH]; intros array Hlen; [reflexivity|].
  simpl removeFromArray_loop.
  destruct (nth_error array i) as [x|] eqn:Hnth.
  2:{ apply nth_error_None in Hnth. lia. }
  rewrite (firstn_succ_nth _ _ _ Hnth), existsb_app. simpl existsb.
  destruct (String.eqb_spec x item) as [->|Hx].
  - rewrite orb_true_r, before_app_item.
    rewrite IH by (rewrite length_firstn; lia).
    rewrite firstn_firstn, Nat.min_id.
    destruct (existsb _ (firstn i array)) eqn:Hex; [reflexivity|].
    symmetry. now apply before_absent.
  - rewrite !orb_false_r. rewrite IH by lia.
    destruct (existsb _ (firstn i array)) eqn:Hex; [|reflexivity].
    symmetry. now apply before_app_present.
Qed.

(** [removeFromArray] cuts the array at the first [item]: nothing from there
    on is left. *)
Lemma removeFromArray_before array item :
  removeFromArray array item = before item array.
Proof.
  unfold removeFromArray. destruct array as [|x array]; [reflexivity|].
  rewrite removeFromArray_loop_spec by lia. rewrite firstn_all.
  destruct (existsb _ (x :: array)) eqn:Hex; [reflexivity|].
  symmetry. now apply before_absent.
Qed.

Lemma removeFromArray_pushed array item :
  existsb (String.eqb item) array = false ->
  removeFromArray (array ++ [item]) item = array.
Proof.
  intros Hnew. rewrite removeFromArray_before, before_app_item.
  apply before_absent. rewrite <- Hnew. clear Hnew.
  induction array as [|x array IH]; simpl; [reflexivity|].
  now rewrite IH, (String.eqb_sym x item).
Qed.

(** What [_remove] with a key does to a word of the index that the
    Collection holds: the count goes down by 1, the word goes when the count
    is 0, and of its keys those in front of the first [k] stay. *)
Lemma _remove_word_entry this key k w r e :
  given key = Some k -> JsObj.get w (collection this) = Some e ->
  JsObj.get w (collection (_remove_word key this (w, r)))
  = (if (WordEntry.count e - 1 =? 0)%Z then None
     else Some
            (WordEntry.mk (WordEntry.weight e) (WordEntry.count e - 1)
               (before k (WordEntry.keys e))))
  /\ size (_remove_word key this (w, r))
     = (if (WordEntry.count e - 1 =? 0)%Z then size this - 1 else size this)%Z.
Proof.
  intros Hkey Hget. unfold _remove_word. rewrite Hget, Hkey.
  destruct (WordEntry.count e - 1 =? 0)%Z; simpl.
  - split; [|reflexivity]. rewrite get_delete. now rewrite String.eqb_refl.
  - split; [|reflexivity]. now rewrite get_set_same, removeFromArray_before.
Qed.

(** ** Claims that the code breaks *)

(** C2: when unmerge is given a key, the key should leave the keys of the
    word and every other key should stay.  With the word "foo" under the keys
    a and b, remove('foo', 'a') leaves the word with count 1 and with no key
    at all: b, which stood behind a, is gone with it. *)
Theorem remove_drops_later_keys :
  collection foo_twice = [("foo", WordEntry.mk 3 2 ["a"; "b"])]
  /\ collection (remove (Some "foo") (Some "a") foo_twice)
     = [("foo", WordEntry.mk 3 1 [])].
Proof. split; vm_compute; reflexivity. Qed.

(** C3: the number of query words that match counts should be the number of
    distinct normalized tokens of the query whatever the Collection holds.
    With "abc" indexed, the query 'abc ab' has two such tokens and match
    counts one: the record of "abc" is overwritten with the tag "ab". *)
Theorem match_size_miscounts :
  List.length (query_tokens "abc ab") = 2%nat
  /\ JsObj.names (_index (Some "abc ab")) = ["abc"; "ab"]
  /\ match_size (_indexAgainst (Some "abc ab") abc_abd) = 1%Z.
Proof. repeat split; vm_compute; reflexivity. Qed.

(** With the count of C3 short by one, the text "abd", which has no word
    starting with "abc", matches all the words of 'abc ab'. *)
Example match_all_abc_ab :
  fst (match_ (Some "abc ab") (Some "all") abc_abd) = Normal ["k1"; "k2"].
Proof. vm_compute. reflexivity. Qed.

(** C6: every key that match returns in mode all should be returned in mode
    any.  For a text under the key "length", mode all returns the key and
    mode any returns nothing: the scores are kept in an array, where the
    assignment to "length" resizes the array and adds no enumerable
    property. *)
Theorem match_any_loses_length :
  fst (match_ (Some "hello") (Some "all") hello_length) = Normal ["length"]
  /\ fst (match_ (Some "hello") (Some "any") hello_length) = Normal [].
Proof. split; vm_compute; reflexivity. Qed.

(** ** Texts without words, and the store of keys *)

Lemma _index_blank str : blank str = true -> _index str = [].
Proof.
  destruct str as [s|]; simpl; [|reflexivity]. now intros ->.
Qed.

Lemma _merge_keys index key this : keys (_merge index key this) = keys this.
Proof.
  unfold _merge. revert this.
  induction index as [|[word r] index IH]; intros this; [reflexivity|].
  simpl. rewrite IH. unfold _merge_word.
  now destruct (JsObj.get word (collection this)).
Qed.

Lemma _remove_keys index key this : keys (_remove index key this) = keys this.
Proof.
  unfold _remove. revert this.
  induction index as [|[word r] index IH]; intros this; [reflexivity|].
  simpl. rewrite IH. unfold _remove_word.
  destruct (JsObj.get word (collection this)) as [e|]; [|reflexivity].
  now destruct (WordEntry.count e - 1 =? 0)%Z.
Qed.

Lemma taints_blank str : blank str = true -> taints str = false.
Proof.
  unfold blank. destruct str as [s|]; [|reflexivity].
  intros H. apply String.eqb_eq in H. now subst s.
Qed.

(** C8, as the code has it: in the environment of the language, add or
    remove with an empty or null text leaves the Collection and the size as
    they were.  The KeyStore is as it was when no key is supplied; with a
    key, add stores the text under the key, unless the key is [__proto__],
    for which the assignment stores nothing, and remove, unless the size is
    0, deletes the entry of the key. *)
Theorem blank_text_calls this str key :
  env this = Standard ->
  blank str = true ->
  (collection (add str key this) = collection this
   /\ size (add str key this) = size this
   /\ keys (add str key this)
      = match given key with
        | Some k =>
            if String.eqb k "__proto__" then keys this
            else JsObj.set k str (keys this)
        | None => keys this
        end)
  /\ (collection (remove str key this) = collection this
      /\ size (remove str key this) = size this
      /\ keys (remove str key this)
         = match given key with
           | Some k =>
               if (size this =? 0)%Z then keys this
               else JsObj.delete k (keys this)
           | None => keys this
           end).
Proof.
  intros _ Hblank. unfold add, remove.
  rewrite (_index_blank _ Hblank), (taints_blank _ Hblank).
  unfold _merge, _remove, store_key. cbn [fold_left].
  destruct (given key) as [k|], (size this =? 0)%Z; cbn; repeat split;
    destruct (String.eqb k "__proto__"); try destruct str; reflexivity.
Qed.

Lemma blank_text_calls_witness :
  env the_quote = Standard
  /\ blank (Some "") = true
  /\ keys (add (Some "") None the_quote) = keys the_quote
  /\ keys (add (Some "") (Some "__proto__") the_quote) = keys the_quote
  /\ keys (remove (Some "") (Some "quote") the_quote) = [].
Proof.
  assert (He : env the_quote = Standard) by (vm_compute; reflexivity).
  split; [exact He|]. split; [reflexivity|].
  destruct (blank_text_calls the_quote (Some "") None He eq_refl)
    as [(_ & _ & Hadd) _].
  destruct (blank_text_calls the_quote (Some "") (Some "__proto__")
              He eq_refl)
    as [(_ & _ & Hproto) _].
  destruct (blank_text_calls the_quote (Some "") (Some "quote")
              He eq_refl)
    as [_ (_ & _ & Hrem)].
  split; [exact Hadd|]. split; [exact Hproto|exact Hrem].
Defined.

(** C8 as stated fails: add('', 'k') on a new engine puts k in the
    KeyStore. *)
Lemma blank_add_changes_keys :
  blank (Some "") = true
  /\ keys (add (Some "") (Some "k") empty) = [("k", Some "")]
  /\ keys (add (Some "") (Some "k") empty) <> keys empty.
Proof. repeat split. discriminate. Qed.




(** ** A query of one word *)

Lemma split_one_word s : has_space s = false -> Str.split " " s = [s].
Proof.
  unfold has_space. induction s as [|c s IH]; [reflexivity|].
  cbn [list_ascii_of_string existsb Str.split].
  rewrite (Ascii.eqb_sym " " c).
  destruct (Ascii.eqb c " "); [discriminate|]. cbn [orb].
  intros Hs. now rewrite (IH Hs).
Qed.

Lemma set_empty {V : Type} k (v : V) : JsObj.set k v [] = [(k, v)].
Proof. unfold JsObj.set. simpl. now destruct (JsObj.array_index k). Qed.

Lemma _index_one_word P :
  (2 <= String.length P)%nat -> normalize P = P -> has_space P = false ->
  JsObj.inherited P = false ->
  _index (Some P) = [(P, IndexRecord.mk (Z.of_nat (String.length P)) 1)].
Proof.
  intros Hlen Hnorm Hsp Hown. unfold _index.
  destruct (String.eqb_spec P "") as [->|_]; [simpl in Hlen; lia|].
  rewrite (split_one_word _ Hsp). simpl. unfold _index_word. rewrite Hnorm.
  destruct (Nat.ltb_spec (String.length P) 2) as [|_]; [lia|].
  simpl. rewrite Hown. apply set_empty.
Qed.

Lemma taints_one_word P :
  normalize P = P -> has_space P = false -> JsObj.inherited P = false ->
  taints (Some P) = false.
Proof.
  intros Hnorm Hsp Hown. unfold taints. rewrite (split_one_word _ Hsp).
  cbn [map existsb]. rewrite Hnorm.
  destruct (String.eqb_spec "__proto__" P) as [<-|_]; [discriminate|].
  reflexivity.
Qed.

Lemma indexOf_prefix W P : String.prefix P W = true -> Str.indexOf W P 0 = 0%Z.
Proof.
  intros Hpre. unfold Str.indexOf. cbn [Nat.min Str.drop].
  destruct W; cbn [Str.search]; now rewrite Hpre.
Qed.


Lemma expansion_of_seed P r : expansion_of P (_indexAgainst_seed [] (P, r)).
Proof.
  unfold _indexAgainst_seed. rewrite set_empty. repeat split; simpl.
  - constructor; [easy|constructor].
  - now left.
  - now repeat constructor.
Qed.

Lemma expansion_of_word P r index we :
  expansion_of P index ->
  expansion_of P (_indexAgainst_word [(P, r)] index we).
Proof.
  intros (Hnd & HP & Horig). unfold _indexAgainst_word. simpl.
  destruct (Str.indexOf (fst we) P 0 =? 0)%Z; [|now repeat split].
  repeat split.
  - now apply nodup_set.
  - apply in_names_set. now right.
  - now apply (Forall_set (fun p => Partial.orig p = P)).
Qed.

Lemma _indexAgainst_word_names P r index we w :
  In w (JsObj.names index) ->
  In w (JsObj.names (_indexAgainst_word [(P, r)] index we)).
Proof.
  intros Hin. unfold _indexAgainst_word. simpl.
  destruct (Str.indexOf (fst we) P 0 =? 0)%Z; [|exact Hin].
  apply in_names_set. now right.
Qed.

(** The loop over the Collection puts every word that starts with [P] into
    the expansion. *)
Lemma _indexAgainst_loop P r coll :
  forall index W e,
  expansion_of P index -> In (W, e) coll -> String.prefix P W = true ->
  let index' := fold_left (_indexAgainst_word [(P, r)]) coll index in
  expansion_of P index' /\ In W (JsObj.names index').
Proof.
  induction coll as [|we coll IH]; intros index W e Hexp Hin Hpre;
    [destruct Hin|].
  cbn [fold_left]. destruct Hin as [->|Hin].
  - split.
    + apply (fold_left_inv (expansion_of P));
        [now apply expansion_of_word|].
      intros a x _ Ha. now apply expansion_of_word.
    + apply (fold_left_inv (fun index => In W (JsObj.names index))).
      * unfold _indexAgainst_word. simpl.
        rewrite (indexOf_prefix _ _ Hpre). simpl.
        apply in_names_set. now left.
      * intros a x _ Ha. now apply _indexAgainst_word_names.
  - apply (IH _ W e); [now apply expansion_of_word|exact Hin|exact Hpre].
Qed.

Lemma expansion_of_indexAgainst P this :
  (2 <= String.length P)%nat -> normalize P = P -> has_space P = false ->
  JsObj.inherited P = false ->
  expansion_of P (_indexAgainst (Some P) this).
Proof.
  intros Hlen Hnorm Hsp Hown. unfold _indexAgainst.
  rewrite (_index_one_word _ Hlen Hnorm Hsp Hown). cbn [fold_left].
  apply (fold_left_inv (expansion_of P)); [apply expansion_of_seed|].
  intros a x _ Ha. now apply expansion_of_word.
Qed.

Lemma match_size_from index acc :
  fold_left
    (fun size (wr : string * Partial.t) =>
       if String.eqb (fst wr) (Partial.orig (snd wr))
       then (size + 1)%Z else size)
    index acc
  = (acc
     + Z.of_nat
         (List.length
            (List.filter
               (fun wr : string * Partial.t =>
                  String.eqb (fst wr) (Partial.orig (snd wr)))
               index)))%Z.
Proof.
  revert acc. induction index as [|wr index IH]; intros acc; simpl; [lia|].
  rewrite IH. destruct (String.eqb (fst wr) (Partial.orig (snd wr))); simpl;
    lia.
Qed.

Lemma count_name_nodup {V : Type} P (o : JsObj.t V) :
  NoDup (JsObj.names o) ->
  List.length (List.filter (fun kv => String.eqb (fst kv) P) o)
  = if in_dec string_dec P (JsObj.names o) then 1%nat else 0%nat.
Proof.
  unfold JsObj.names. induction o as [|[k v] o IH]; simpl; [reflexivity|].
  intros Hnd. inversion Hnd as [|? ? Hk Hnd']; subst.
  specialize (IH Hnd'). destruct (String.eqb_spec k P) as [->|Hne]; simpl.
  - rewrite IH. destruct (string_dec P P) as [_|]; [|contradiction].
    destruct (in_dec string_dec P (map fst o)); [contradiction|reflexivity].
  - rewrite IH. destruct (string_dec k P); [contradiction|].
    now destruct (in_dec string_dec P (map fst o)).
Qed.

(** For the one-word query, [match] counts one query word. *)
Lemma match_size_one P index : expansion_of P index -> match_size index = 1%Z.
Proof.
  intros (Hnd & HP & Horig). unfold match_size. rewrite match_size_from.
  rewrite (filter_ext_in _ (fun wr => String.eqb (fst wr) P)).
  - rewrite (count_name_nodup _ _ Hnd).
    now destruct (in_dec string_dec P (JsObj.names index)).
  - intros wr Hin. rewrite Forall_forall in Horig. now rewrite (Horig _ Hin).
Qed.

Lemma match_key_tagged P keys key :
  tagged P keys -> tagged P (match_key_own P keys key).
Proof.
  intros Ht. unfold match_key_own.
  destruct (JsObj.get key keys) as [origs|] eqn:Hget.
  - apply get_some_in in Hget. pose proof Ht as Hall. unfold tagged in Hall.
    rewrite Forall_forall in Hall. specialize (Hall _ Hget). simpl in Hall.
    subst origs. unfold indexOf. cbn [indexOf_from].
    now rewrite String.eqb_refl.
  - now apply (Forall_set (fun origs => origs = [P])).
Qed.

Lemma match_key_names orig keys key k :
  In k (JsObj.names keys) -> In k (JsObj.names (match_key_own orig keys key)).
Proof.
  intros Hin. unfold match_key_own. destruct (JsObj.get key keys) as [origs|].
  - destruct (indexOf origs orig =? -1)%Z; [|exact Hin].
    apply in_names_set. now right.
  - apply in_names_set. now right.
Qed.

Lemma match_key_enters orig keys key :
  In key (JsObj.names (match_key_own orig keys key)).
Proof.
  unfold match_key_own. destruct (JsObj.get key keys) as [origs|] eqn:Hget.
  - destruct (indexOf origs orig =? -1)%Z.
    + apply in_names_set. now left.
    + eapply get_some_names; eauto.
  - apply in_names_set. now left.
Qed.

Lemma match_key_loop_names orig found keys k :
  In k (JsObj.names keys) ->
  In k (JsObj.names (fold_left (match_key_own orig) found keys)).
Proof.
  intros Hin. apply (fold_left_inv (fun keys => In k (JsObj.names keys)));
    [exact Hin|].
  intros a x _ Ha. now apply match_key_names.
Qed.

Lemma match_key_loop_enters orig found :
  forall keys key, In key found ->
  In key (JsObj.names (fold_left (match_key_own orig) found keys)).
Proof.
  induction found as [|x found IH]; intros keys key Hin; [destruct Hin|].
  cbn [fold_left]. destruct Hin as [->|Hin].
  - apply match_key_loop_names, match_key_enters.
  - now apply IH.
Qed.

Lemma match_word_tagged P this keys wr :
  Partial.orig (snd wr) = P -> tagged P keys ->
  tagged P (match_word_own this keys wr).
Proof.
  intros Horig Ht. unfold match_word_own. rewrite Horig.
  destruct (JsObj.get (fst wr) (collection this)) as [found|]; [|exact Ht].
  apply (fold_left_inv (tagged P)); [exact Ht|].
  intros a x _ Ha. now apply match_key_tagged.
Qed.

Lemma match_word_names this keys wr k :
  In k (JsObj.names keys) -> In k (JsObj.names (match_word_own this keys wr)).
Proof.
  intros Hin. unfold match_word_own.
  destruct (JsObj.get (fst wr) (collection this)) as [found|]; [|exact Hin].
  now apply match_key_loop_names.
Qed.

(** Every key of a word of the expansion that the Collection holds is among
    the keys found. *)
Lemma match_keys_enters this index :
  forall keys W p e key,
  In (W, p) index -> JsObj.get W (collection this) = Some e ->
  In key (WordEntry.keys e) ->
  In key (JsObj.names (fold_left (match_word_own this) index keys)).
Proof.
  induction index as [|wr index IH]; intros keys W p e key Hin Hget Hkey;
    [destruct Hin|].
  cbn [fold_left]. destruct Hin as [->|Hin].
  - apply (fold_left_inv (fun keys => In key (JsObj.names keys))).
    + unfold match_word_own. simpl. rewrite Hget.
      now apply match_key_loop_enters.
    + intros a x _ Ha. now apply match_word_names.
  - now apply (IH _ W p e).
Qed.

Lemma match_keys_tagged P this index :
  Forall (fun wr : string * Partial.t => Partial.orig (snd wr) = P) index ->
  tagged P (match_keys_own index this).
Proof.
  intros Horig. unfold match_keys_own.
  apply (fold_left_inv (tagged P)); [constructor|].
  intros a wr Hin Ha. apply match_word_tagged; [|exact Ha].
  rewrite Forall_forall in Horig. now apply Horig.
Qed.

Lemma match_all_tagged P keys :
  tagged P keys -> match_all keys 1 = JsObj.names keys.
Proof.
  unfold match_all, JsObj.names, tagged.
  induction 1 as [|[k l] keys Hl _ IH]; simpl; [reflexivity|].
  simpl in Hl. subst l. simpl. now rewrite IH.
Qed.

(** The loop over the keys with and without the throw. *)
Lemma loop_fold {A B : Type} (body : A -> B -> completion A)
  (f : A -> B -> A) (l : list B) :
  forall a,
  (forall a b, In b l -> body a b = Normal (f a b)) ->
  loop body l a = Normal (fold_left f l a).
Proof.
  induction l as [|b l IH]; intros a Hbody; [reflexivity|].
  cbn [loop fold_left]. rewrite (Hbody a b (or_introl eq_refl)).
  apply IH. intros a' b' Hin. apply Hbody. now right.
Qed.

Lemma loop_normal {A B : Type} (body : A -> B -> completion A)
  (f : A -> B -> A) (l : list B) :
  (forall a b a', body a b = Normal a' -> a' = f a b) ->
  forall a r, loop body l a = Normal r -> r = fold_left f l a.
Proof.
  intros Hbody. induction l as [|b l IH]; intros a r Hrun.
  - cbn in Hrun. now inversion Hrun.
  - cbn [loop fold_left] in *.
    destruct (body a b) as [a'| | |] eqn:Hb; try discriminate.
    rewrite <- (Hbody _ _ _ Hb). now apply IH.
Qed.

Lemma match_key_plain orig keys key :
  JsObj.inherited key = false ->
  match_key orig keys key = Normal (match_key_own orig keys key).
Proof.
  intros Hown. unfold match_key, match_key_own.
  destruct (JsObj.get key keys) as [origs|].
  - now destruct (indexOf origs orig =? -1)%Z.
  - now rewrite Hown.
Qed.

Lemma match_key_normal orig keys key keys' :
  match_key orig keys key = Normal keys' ->
  keys' = match_key_own orig keys key.
Proof.
  unfold match_key, match_key_own.
  destruct (JsObj.get key keys) as [origs|].
  - destruct (indexOf origs orig =? -1)%Z; intros H; now inversion H.
  - destruct (JsObj.inherited key); intros H; [discriminate|now inversion H].
Qed.

Lemma plain_keys_get this word e key :
  plain_keys this = true ->
  JsObj.get word (collection this) = Some e ->
  In key (WordEntry.keys e) ->
  JsObj.inherited key = false.
Proof.
  unfold plain_keys. intros Hplain Hget Hin.
  rewrite forallb_forall in Hplain.
  specialize (Hplain _ (get_some_in _ _ _ Hget)). cbn [snd] in Hplain.
  destruct (JsObj.inherited key) eqn:Hk; [|reflexivity].
  assert (Hex : existsb JsObj.inherited (WordEntry.keys e) = true).
  { apply existsb_exists. now exists key. }
  now rewrite Hex in Hplain.
Qed.

Lemma match_word_safe this keys wr :
  (forall e key,
     JsObj.get (fst wr) (collection this) = Some e ->
     In key (WordEntry.keys e) -> JsObj.inherited key = false) ->
  match_word this keys wr = Normal (match_word_own this keys wr).
Proof.
  intros Hsafe. unfold match_word, match_word_own.
  destruct (JsObj.get (fst wr) (collection this)) as [found|] eqn:Hget;
    [|reflexivity].
  apply loop_fold. intros a key Hin. apply match_key_plain.
  exact (Hsafe _ _ eq_refl Hin).
Qed.

Lemma match_word_normal this keys wr keys' :
  match_word this keys wr = Normal keys' ->
  keys' = match_word_own this keys wr.
Proof.
  unfold match_word, match_word_own.
  destruct (JsObj.get (fst wr) (collection this)) as [found|].
  - apply loop_normal. intros a b a'. apply match_key_normal.
  - intros H. now inversion H.
Qed.

(** The loop does not throw when no key that it meets names an inherited
    member. *)
Lemma match_keys_safe index this :
  (forall wr e key,
     In wr index -> JsObj.get (fst wr) (collection this) = Some e ->
     In key (WordEntry.keys e) -> JsObj.inherited key = false) ->
  match_keys index this = Normal (match_keys_own index this).
Proof.
  intros Hsafe. unfold match_keys, match_keys_own. apply loop_fold.
  intros a wr Hin. apply match_word_safe. intros e key. now apply Hsafe.
Qed.

Lemma match_keys_plain index this :
  plain_keys this = true ->
  match_keys index this = Normal (match_keys_own index this).
Proof.
  intros Hplain. apply match_keys_safe. intros wr e key _.
  now apply plain_keys_get.
Qed.

Lemma match_keys_normal index this keys :
  match_keys index this = Normal keys -> keys = match_keys_own index this.
Proof.
  unfold match_keys, match_keys_own. apply loop_normal.
  intros a b a'. apply match_word_normal.
Qed.

(** C4: the word [constructors] is in the Collection under the key [k], and
    its prefix [constructor], which is 11 characters long and which
    normalize leaves as it is, is the sole token of the query: match returns
    no key.  [_index] makes no record for the query, since
    [index['constructor']] is the inherited member, so there is nothing to
    expand. *)
Theorem constructor_prefix_missed :
  let this := add (Some "constructors") (Some "k") empty in
  JsObj.get "constructors" (collection this)
  = Some (WordEntry.mk 12 1 ["k"])
  /\ String.prefix "constructor" "constructors" = true
  /\ normalize "constructor" = "constructor"
  /\ _index (Some "constructor") = []
  /\ fst (match_ (Some "constructor") (Some "all") this) = Normal [].
Proof. vm_compute. repeat split; reflexivity. Qed.

(** In mode all, the one-word query [P] finds every key of every word that
    starts with [P]. *)
Lemma match_all_prefix this W e P key :
  env this = Standard ->
  plain_keys this = true ->
  JsObj.get W (collection this) = Some e ->
  String.prefix P W = true ->
  (2 <= String.length P)%nat ->
  normalize P = P ->
  has_space P = false ->
  JsObj.inherited P = false ->
  In key (WordEntry.keys e) ->
  exists result,
    fst (match_ (Some P) (Some "all") this) = Normal result /\ In key result.
Proof.
  intros Henv Hplain Hget Hpre Hlen Hnorm Hsp Hown Hkey.
  pose proof (expansion_of_indexAgainst P this Hlen Hnorm Hsp Hown) as Hexp.
  assert (HW : In W (JsObj.names (_indexAgainst (Some P) this))).
  { unfold _indexAgainst. rewrite (_index_one_word _ Hlen Hnorm Hsp Hown).
    cbn [fold_left].
    eapply (_indexAgainst_loop P _ (collection this) _ W e);
      [apply expansion_of_seed|now apply get_some_in|exact Hpre]. }
  unfold match_. rewrite (taints_one_word _ Hnorm Hsp Hown), Henv.
  rewrite (match_keys_plain _ _ Hplain).
  cbn [given String.eqb Ascii.eqb Bool.eqb fst].
  eexists. split; [reflexivity|].
  rewrite (match_size_one _ _ Hexp).
  destruct Hexp as (_ & _ & Horig).
  rewrite (match_all_tagged P) by now apply match_keys_tagged.
  unfold JsObj.names in HW. apply in_map_iff in HW as ([W' p] & HW' & Hin).
  simpl in HW'. subst W'. unfold match_keys_own.
  now apply (match_keys_enters this _ [] W p e).
Qed.

(** In the environment of the language, for every word W of the Collection
    and every prefix P of W of length 2 or more that normalize leaves as it
    is, that names no inherited member and that is the sole token of the
    query (it holds no space), match(P, "all") returns a list that holds
    every key of the keys list of W, when no key of the Collection names an
    inherited member. *)
Theorem prefix_containment this W e P key :
  env this = Standard ->
  plain_keys this = true ->
  JsObj.get W (collection this) = Some e ->
  String.prefix P W = true ->
  (2 <= String.length P)%nat ->
  normalize P = P ->
  has_space P = false ->
  JsObj.inherited P = false ->
  In key (WordEntry.keys e) ->
  exists result,
    fst (match_ (Some P) (Some "all") this) = Normal result /\ In key result.
Proof. apply match_all_prefix. Qed.

Lemma prefix_containment_witness :
  exists result,
    fst (match_ (Some "inst") (Some "all") the_instruction) = Normal result
    /\ In "instruction" result.
Proof.
  apply (prefix_containment the_instruction "install"
           (WordEntry.mk 7 1 ["instruction"]) "inst" "instruction").
  - vm_compute. reflexivity.
  - vm_compute. reflexivity.
  - vm_compute. reflexivity.
  - reflexivity.
  - simpl. lia.
  - vm_compute. reflexivity.
  - reflexivity.
  - reflexivity.
  - simpl. now left.
Defined.

(** ** Adding a text and removing it again *)

Lemma obj_ext {V : Type} (o1 : JsObj.t V) :
  forall o2 : JsObj.t V,
  NoDup (JsObj.names o1) -> JsObj.names o1 = JsObj.names o2 ->
  (forall k, JsObj.get k o1 = JsObj.get k o2) -> o1 = o2.
Proof.
  induction o1 as [|[k1 v1] o1 IH]; intros [|[k2 v2] o2] Hnd Hnames Hget;
    try discriminate; [reflexivity|].
  cbn [JsObj.names map fst] in Hnd, Hnames.
  injection Hnames as Hk Hnames. subst k2.
  apply NoDup_cons_iff in Hnd as [Hnotin Hnd].
  pose proof (Hget k1) as Hv. cbn [JsObj.get] in Hv.
  rewrite String.eqb_refl in Hv. injection Hv as Hv. subst v2.
  f_equal. apply IH; [exact Hnd|exact Hnames|].
  intros k. specialize (Hget k). cbn [JsObj.get] in Hget.
  revert Hget. destruct (String.eqb_spec k k1) as [Heq|Hne]; [|easy].
  intros _. subst k. pose proof Hnotin as Hnotin2.
  fold (JsObj.names o1) in Hnotin, Hnotin2.
  unfold JsObj.names in Hnames. fold (JsObj.names o1) in Hnames.
  fold (JsObj.names o2) in Hnames. rewrite Hnames in Hnotin2.
  apply get_none_names in Hnotin, Hnotin2. congruence.
Qed.

Lemma _merge_word_collection key this w r :
  collection (_merge_word key this (w, r))
  = JsObj.set w (merged key r (JsObj.get w (collection this)))
      (collection this).
Proof.
  unfold _merge_word, merged.
  now destruct (JsObj.get w (collection this)).
Qed.

Lemma _remove_word_collection key this w r :
  collection (_remove_word key this (w, r))
  = match JsObj.get w (collection this) with
    | Some e =>
        match removed key e with
        | Some e' => JsObj.set w e' (collection this)
        | None => JsObj.delete w (collection this)
        end
    | None => collection this
    end.
Proof.
  unfold _remove_word, removed.
  destruct (JsObj.get w (collection this)) as [e|]; [|reflexivity].
  now destruct (WordEntry.count e - 1 =? 0)%Z.
Qed.

(** The entry of each word after [_merge]. *)
Lemma _merge_get key index :
  forall this w, NoDup (JsObj.names index) ->
  JsObj.get w (collection (_merge index key this))
  = match JsObj.get w index with
    | Some r => Some (merged key r (JsObj.get w (collection this)))
    | None => JsObj.get w (collection this)
    end.
Proof.
  unfold _merge.
  induction index as [|[w0 r0] index IH]; intros this w Hnd; [reflexivity|].
  cbn [fold_left]. simpl in Hnd. inversion Hnd as [|? ? Hw0 Hnd']; subst.
  rewrite (IH _ _ Hnd'), _merge_word_collection, get_set. simpl.
  destruct (String.eqb_spec w w0) as [->|Hne]; [|reflexivity].
  apply get_none_names in Hw0. now rewrite Hw0.
Qed.

(** The entry of each word after [_remove]. *)
Lemma _remove_get key index :
  forall this w, NoDup (JsObj.names index) ->
  JsObj.get w (collection (_remove index key this))
  = match JsObj.get w index with
    | Some _ =>
        match JsObj.get w (collection this) with
        | Some e => removed key e
        | None => None
        end
    | None => JsObj.get w (collection this)
    end.
Proof.
  unfold _remove.
  induction index as [|[w0 r0] index IH]; intros this w Hnd; [reflexivity|].
  cbn [fold_left]. simpl in Hnd. inversion Hnd as [|? ? Hw0 Hnd']; subst.
  apply get_none_names in Hw0.
  rewrite (IH _ _ Hnd'), _remove_word_collection. simpl.
  destruct (String.eqb_spec w w0) as [->|Hne].
  - rewrite Hw0. destruct (JsObj.get w0 (collection this)) as [e|] eqn:Hget.
    + destruct (removed key e).
      * apply get_set_same.
      * rewrite get_delete. now rewrite String.eqb_refl.
    + exact Hget.
  - assert (Hsame :
        JsObj.get w
          match JsObj.get w0 (collection this) with
          | Some e =>
              match removed key e with
              | Some e' => JsObj.set w0 e' (collection this)
              | None => JsObj.delete w0 (collection this)
              end
          | None => collection this
          end
        = JsObj.get w (collection this)).
    { destruct (JsObj.get w0 (collection this)) as [e|]; [|reflexivity].
      destruct (removed key e).
      - now apply get_set_other.
      - rewrite get_delete. now destruct (String.eqb_spec w w0). }
    now rewrite Hsame.
Qed.

Lemma filter_names_insert_index {V : Type} (f : string -> bool) n k (v : V) o :
  f k = false ->
  List.filter f (JsObj.names (JsObj.insert_index n k v o))
  = List.filter f (JsObj.names o).
Proof.
  intros Hk. unfold JsObj.names.
  induction o as [|[k0 v0] o IH]; simpl; [now rewrite Hk|].
  destruct (JsObj.array_index k0) as [n0|]; [|simpl; now rewrite Hk].
  destruct (n <? n0)%N; simpl; [now rewrite Hk|]. now rewrite IH.
Qed.

(** A filter that rejects [k] does not see whether [k] was assigned. *)
Lemma filter_names_set {V : Type} (f : string -> bool) k (v : V) o :
  JsObj.has k o = true \/ f k = false ->
  List.filter f (JsObj.names (JsObj.set k v o))
  = List.filter f (JsObj.names o).
Proof.
  intros Hk. unfold JsObj.set. destruct (JsObj.has k o) eqn:Hhas.
  - now rewrite names_update.
  - destruct Hk as [|Hk]; [discriminate|].
    destruct (JsObj.array_index k).
    + now apply filter_names_insert_index.
    + unfold JsObj.names. rewrite map_app, filter_app. simpl.
      rewrite Hk. apply app_nil_r.
Qed.

Lemma filter_names_delete {V : Type} (f : string -> bool) k (o : JsObj.t V) :
  f k = false ->
  List.filter f (JsObj.names (JsObj.delete k o))
  = List.filter f (JsObj.names o).
Proof.
  intros Hk. rewrite names_delete.
  induction (JsObj.names o) as [|k0 l IH]; simpl; [reflexivity|].
  destruct (String.eqb_spec k k0) as [<-|Hne]; simpl.
  - now rewrite Hk.
  - now rewrite IH.
Qed.

Lemma has_set {V : Type} k k' (v : V) o :
  JsObj.has k' o = true -> JsObj.has k' (JsObj.set k v o) = true.
Proof.
  unfold JsObj.has. rewrite get_set.
  now destruct (String.eqb k' k).
Qed.

(** Seen through a filter that keeps only words the Collection has,
    [_merge] leaves the list of words as it is. *)
Lemma _merge_names (f : string -> bool) key index :
  forall this,
  (forall w, f w = true -> JsObj.has w (collection this) = true) ->
  List.filter f (JsObj.names (collection (_merge index key this)))
  = List.filter f (JsObj.names (collection this)).
Proof.
  unfold _merge.
  induction index as [|[w0 r0] index IH]; intros this Hf; [reflexivity|].
  cbn [fold_left]. rewrite IH.
  - rewrite _merge_word_collection. apply filter_names_set.
    destruct (f w0) eqn:Hw0; [left; now apply Hf|now right].
  - intros w Hw. rewrite _merge_word_collection. now apply has_set, Hf.
Qed.

(** When [f] tells which of the words that [_remove] visits stay, and holds
    of the words it does not visit, [_remove] filters the list of words
    by [f]. *)
Lemma _remove_names (f : string -> bool) key index :
  forall this, NoDup (JsObj.names index) ->
  (forall w e, JsObj.get w (collection this) = Some e ->
     if JsObj.has w index
     then match removed key e with
          | Some _ => f w = true
          | None => f w = false
          end
     else f w = true) ->
  JsObj.names (collection (_remove index key this))
  = List.filter f (JsObj.names (collection this)).
Proof.
  unfold _remove.
  induction index as [|[w0 r0] index IH]; intros this Hnd Hf.
  - simpl. symmetry. apply forallb_filter_id. apply forallb_forall.
    intros w Hin.
    destruct (JsObj.get w (collection this)) as [e|] eqn:Hget.
    + exact (Hf w e Hget).
    + apply get_none_names in Hget. contradiction.
  - cbn [fold_left]. simpl in Hnd. apply NoDup_cons_iff in Hnd as [Hw0 Hnd].
    apply get_none_names in Hw0.
    assert (Hhead : forall w, w <> w0 ->
              JsObj.has w ((w0, r0) :: index) = JsObj.has w index).
    { intros w Hne. unfold JsObj.has. simpl.
      now destruct (String.eqb_spec w w0). }
    rewrite IH; [|exact Hnd|]; rewrite _remove_word_collection.
    + destruct (JsObj.get w0 (collection this)) as [e0|] eqn:Hget0;
        [|reflexivity].
      specialize (Hf w0 e0 Hget0). unfold JsObj.has in Hf. simpl in Hf.
      rewrite String.eqb_refl in Hf.
      destruct (removed key e0).
      * apply f_equal. unfold JsObj.set, JsObj.has. rewrite Hget0.
        apply names_update.
      * now apply filter_names_delete.
    + intros w e Hget.
      destruct (String.eqb_spec w w0) as [->|Hne].
      * (* the word just visited: it is kept, and not visited again *)
        unfold JsObj.has. rewrite Hw0.
        destruct (JsObj.get w0 (collection this)) as [e0|] eqn:Hget0.
        -- specialize (Hf w0 e0 Hget0). unfold JsObj.has in Hf. simpl in Hf.
           rewrite String.eqb_refl in Hf.
           destruct (removed key e0); [exact Hf|].
           rewrite get_delete, String.eqb_refl in Hget. discriminate.
        -- congruence.
      * rewrite <- (Hhead w Hne). apply Hf.
        destruct (JsObj.get w0 (collection this)) as [e0|]; [|exact Hget].
        destruct (removed key e0).
        -- now rewrite get_set_other in Hget.
        -- rewrite get_delete in Hget.
           now destruct (String.eqb_spec w w0).
Qed.

Lemma removed_merged_old key r e :
  WordEntry.count e <> 0%Z ->
  (forall k, given key = Some k ->
     existsb (String.eqb k) (WordEntry.keys e) = false) ->
  removed key (merged key r (Some e)) = Some e.
Proof.
  intros Hcount Hfresh. unfold removed, merged. simpl.
  destruct (Z.eqb_spec (WordEntry.count e + 1 - 1) 0) as [|_]; [lia|].
  destruct e as [weight count ks]. simpl in *. f_equal. f_equal; [lia|].
  destruct (given key) as [k|]; [|reflexivity].
  apply removeFromArray_pushed. now apply Hfresh.
Qed.

Lemma removed_merged_new key r :
  IndexRecord.count r = 1%Z -> removed key (merged key r None) = None.
Proof. intros Hr. unfold removed, merged. simpl. now rewrite Hr. Qed.

Section RoundTrip.
Variables (key : option string) (index : JsObj.t IndexRecord.t) (this : Jsse).
Hypothesis index_nodup : NoDup (JsObj.names index).
Hypothesis this_consistent : consistent this.
Hypothesis key_fresh : fresh_for key index this = true.
Hypothesis words_once : new_words_once index this = true.

Lemma removed_merged w r :
  JsObj.get w index = Some r ->
  removed key (merged key r (JsObj.get w (collection this)))
  = JsObj.get w (collection this).
Proof.
  intros Hw. apply get_some_in in Hw.
  destruct (JsObj.get w (collection this)) as [e|] eqn:Hget.
  - apply removed_merged_old.
    + destruct this_consistent as (_ & _ & Hcount).
      rewrite Forall_forall in Hcount.
      specialize (Hcount _ (get_some_in _ _ _ Hget)). simpl in Hcount. lia.
    + intros k Hk. unfold fresh_for in key_fresh. rewrite Hk in key_fresh.
      unfold key_unused in key_fresh.
      apply andb_true_iff in key_fresh as [_ Hall].
      rewrite forallb_forall in Hall. specialize (Hall _ Hw).
      simpl in Hall. rewrite Hget in Hall. now apply negb_true_iff in Hall.
  - apply removed_merged_new. unfold new_words_once in words_once.
    rewrite forallb_forall in words_once. specialize (words_once _ Hw).
    simpl in words_once. rewrite Hget in words_once.
    now apply Z.eqb_eq.
Qed.

(** [_remove] undoes what [_merge] did to the Collection.  The store of keys
    plays no part: [keys'] stands for what [add] made of it. *)
Lemma _remove_merge_collection keys' env' :
  collection
    (_remove index key
       (_merge index key (mkJsse (size this) (collection this) keys' env')))
  = collection this.
Proof.
  set (this' := mkJsse (size this) (collection this) keys' env').
  set (f := fun w => JsObj.has w (collection this)).
  assert (Hmerged : forall w,
            JsObj.get w (collection (_merge index key this'))
            = match JsObj.get w index with
              | Some r => Some (merged key r (JsObj.get w (collection this)))
              | None => JsObj.get w (collection this)
              end).
  { intros w. now rewrite _merge_get. }
  symmetry. apply obj_ext.
  - apply this_consistent.
  - rewrite (_remove_names f); [|exact index_nodup|].
    2:{ intros w e. rewrite Hmerged. unfold JsObj.has, f, JsObj.has.
        destruct (JsObj.get w index) as [r|] eqn:Hw.
        - intros [= <-]. rewrite (removed_merged _ _ Hw).
          now destruct (JsObj.get w (collection this)).
        - now intros ->. }
    rewrite (_merge_names f) by (intros w Hw; exact Hw).
    simpl. symmetry. apply forallb_filter_id, forallb_forall.
    intros w Hin. unfold f, JsObj.has.
    destruct (JsObj.get w (collection this)) eqn:Hget; [reflexivity|].
    apply get_none_names in Hget. contradiction.
  - intros w. rewrite _remove_get by exact index_nodup. rewrite Hmerged.
    destruct (JsObj.get w index) as [r|] eqn:Hw; [|reflexivity].
    symmetry. now apply removed_merged.
Qed.

End RoundTrip.

Lemma delete_insert_index {V : Type} n k (v : V) o :
  JsObj.get k o = None -> JsObj.delete k (JsObj.insert_index n k v o) = o.
Proof.
  unfold JsObj.delete.
  induction o as [|[k0 v0] o IH]; simpl.
  - now rewrite String.eqb_refl.
  - destruct (String.eqb_spec k k0) as [->|Hne]; [discriminate|]. intros Hk.
    assert (Hrest : List.filter
                      (fun kv : string * V => negb (String.eqb k (fst kv))) o
                    = o).
    { clear IH. induction o as [|[k1 v1] o IHo]; simpl; [reflexivity|].
      simpl in Hk. destruct (String.eqb_spec k k1); [discriminate|]. simpl.
      now rewrite IHo. }
    destruct (JsObj.array_index k0) as [n0|].
    + destruct (n <? n0)%N; simpl.
      * rewrite String.eqb_refl. simpl.
        destruct (String.eqb_spec k k0); [contradiction|]. simpl.
        now rewrite Hrest.
      * destruct (String.eqb_spec k k0); [contradiction|]. simpl.
        now rewrite IH.
    + simpl. rewrite String.eqb_refl. simpl.
      destruct (String.eqb_spec k k0); [contradiction|]. simpl.
      now rewrite Hrest.
Qed.

Lemma delete_absent {V : Type} k (o : JsObj.t V) :
  JsObj.get k o = None -> JsObj.delete k o = o.
Proof.
  unfold JsObj.delete. induction o as [|[k0 v0] o IH]; simpl; [reflexivity|].
  destruct (String.eqb_spec k k0); [discriminate|]. simpl.
  intros Hk. now rewrite IH.
Qed.

(** Deleting a name that was assigned while absent gives the object back. *)
Lemma delete_set_new {V : Type} k (v : V) o :
  JsObj.get k o = None -> JsObj.delete k (JsObj.set k v o) = o.
Proof.
  intros Hk. unfold JsObj.set, JsObj.has. rewrite Hk.
  destruct (JsObj.array_index k).
  - now apply delete_insert_index.
  - unfold JsObj.delete. rewrite filter_app. simpl.
    rewrite String.eqb_refl. simpl. rewrite app_nil_r.
    now apply delete_absent.
Qed.

(** C1, as the code has it: in an engine whose Collection lists no word twice,
    whose size counts its words and whose words all have a count of 1 or more
    (every reachable engine is such), add(T, K) followed by remove(T, K)
    restores the size, the Collection and the KeyStore exactly, when
    - the add leaves the environment of the language as it is (T has no word
      [__proto__], and the call is not add(null, '__proto__')),
    - K is not supplied, or K is neither a key of the KeyStore nor in the keys
      of a word of T that the Collection holds,
    - every word of T that the Collection lacks occurs once in T, and
    - the size after the add is not 0, or K is not supplied. *)
Theorem add_then_remove this str key :
  env (add str key this) = Standard ->
  consistent this ->
  fresh_for key (_index str) this = true ->
  new_words_once (_index str) this = true ->
  size (add str key this) <> 0%Z \/ given key = None ->
  remove str key (add str key this) = this.
Proof.
  intros Henv Hthis Hfresh Honce Hguard.
  destruct (_index_wf str) as [Hnd _].
  assert (Htaint : taints str = false).
  { destruct (taints str) eqn:Ht; [|reflexivity].
    unfold add in Henv. rewrite _merge_env, Ht in Henv. discriminate. }
  assert (Hadd : add str key this
                 = _merge (_index str) key
                     (mkJsse (size this) (collection this)
                        match given key with
                        | Some k =>
                            if String.eqb k "__proto__" then keys this
                            else JsObj.set k str (keys this)
                        | None => keys this
                        end (env this))).
  { unfold add in *. rewrite _merge_env in Henv. rewrite Htaint in *.
    f_equal. destruct (given key) as [k|]; [|now destruct this].
    unfold store_key in *. destruct (String.eqb k "__proto__"); [|reflexivity].
    destruct str; [now destruct this|discriminate]. }
  unfold remove. rewrite Htaint.
  destruct (Z.eqb_spec (size (add str key this)) 0) as [Hz|Hnz].
  - (* nothing is indexed and no key was stored *)
    destruct Hguard as [|Hkey]; [contradiction|].
    rewrite Hadd in *. rewrite Hkey in *.
    replace (mkJsse (size this) (collection this) (keys this) (env this))
      with this in * by now destruct this.
    destruct (_merge_consistent (_index str) key this
                (proj2 (_index_wf str)) Hthis) as (_ & Hsize & _).
    rewrite Hz in Hsize. unfold getWords in Hsize.
    pose proof (fun w => _merge_get key (_index str) this w Hnd) as Hget.
    destruct (_index str) as [|[w r] index]; [reflexivity|].
    specialize (Hget w). cbn [JsObj.get] in Hget.
    rewrite String.eqb_refl in Hget.
    destruct (collection (_merge ((w, r) :: index) key this));
      [discriminate|simpl in Hsize; lia].
  - rewrite Hadd. cbv zeta.
    set (keys' := match given key with
                  | Some k =>
                      if String.eqb k "__proto__" then keys this
                      else JsObj.set k str (keys this)
                  | None => keys this
                  end).
    set (after := _remove (_index str) key
                    (_merge (_index str) key
                       (mkJsse (size this) (collection this) keys'
                          (env this)))).
    assert (Hcoll : collection after = collection this).
    { now apply _remove_merge_collection. }
    assert (Hsize : size after = size this).
    { assert (Hafter : consistent after).
      { apply _remove_consistent, _merge_consistent;
          [apply _index_wf|exact Hthis]. }
      destruct Hafter as (_ & Hsize & _). destruct Hthis as (_ & Hsize' & _).
      unfold getWords in *. now rewrite Hsize, Hcoll, Hsize'. }
    assert (Hkeys : keys after = keys').
    { unfold after. now rewrite _remove_keys, _merge_keys. }
    assert (Hstays : env after = env this).
    { unfold after. now rewrite _remove_env, _merge_env. }
    clearbody after. unfold keys' in Hkeys. clear keys'.
    unfold fresh_for in Hfresh.
    destruct (given key) as [k|] eqn:Hkey.
    + rewrite Hcoll, Hsize, Hkeys, Hstays.
      unfold key_unused in Hfresh. apply andb_true_iff in Hfresh as [Hk _].
      unfold JsObj.has in Hk.
      destruct (JsObj.get k (keys this)) eqn:Hget; [discriminate|].
      destruct (String.eqb k "__proto__").
      * rewrite (delete_absent _ _ Hget). now destruct this.
      * rewrite (delete_set_new _ _ _ Hget). now destruct this.
    + destruct after as [s c ks e]. simpl in *. subst. now destruct this.
Qed.

Lemma add_then_remove_witness :
  remove (Some "It will work fine after you install that patch.")
    (Some "instruction")
    (add (Some "It will work fine after you install that patch.")
       (Some "instruction") the_quote)
  = the_quote.
Proof.
  apply add_then_remove.
  - vm_compute. reflexivity.
  - apply reachable_consistent, reachable_the_quote.
  - vm_compute. reflexivity.
  - vm_compute. reflexivity.
  - left. vm_compute. discriminate.
Defined.

(** C1 as stated fails where the code works as it is meant to.  On a new
    engine, a key whose text holds no word stays in the KeyStore, for remove
    returns at once when the size is 0; and a key that the KeyStore held
    before the add is deleted by the remove, with the text it had. *)
Lemma add_then_remove_fails :
  remove (Some "is") (Some "k") (add (Some "is") (Some "k") empty)
  = mkJsse 0 [] [("k", Some "is")] Standard
  /\ remove (Some "is") (Some "k") (add (Some "is") (Some "k") empty)
     <> empty
  /\ keys (add (Some "hello") (Some "k") empty) = [("k", Some "hello")]
  /\ keys (remove (Some "world") (Some "k")
             (add (Some "world") (Some "k")
                (add (Some "hello") (Some "k") empty)))
     = [].
Proof. repeat split; vm_compute; (reflexivity || discriminate). Qed.

(** Two more ways in which the add is not undone.  A new word that occurs
    twice in the text comes in with count 2 and is left with count 1; a key
    that a word of the text had already is cut from the keys of the word with
    all the keys behind it. *)
Lemma add_then_remove_leftovers :
  collection
    (remove (Some "foo foo") (Some "k")
       (add (Some "foo foo") (Some "k") empty))
  = [("foo", WordEntry.mk 3 1 [])]
  /\ collection foo_twice = [("foo", WordEntry.mk 3 2 ["a"; "b"])]
  /\ collection
       (remove (Some "foo") (Some "a") (add (Some "foo") (Some "a") foo_twice))
     = [("foo", WordEntry.mk 3 2 [])].
Proof. repeat split; vm_compute; reflexivity. Qed.

(** ** The two modes of [match] *)

Lemma match_key_names_from orig keys key k :
  In k (JsObj.names (match_key_own orig keys key)) ->
  k = key \/ In k (JsObj.names keys).
Proof.
  unfold match_key_own. destruct (JsObj.get key keys) as [origs|].
  - destruct (indexOf origs orig =? -1)%Z; [|now right].
    apply in_names_set.
  - apply in_names_set.
Qed.

Lemma match_key_loop_names_from orig found :
  forall keys k,
  In k (JsObj.names (fold_left (match_key_own orig) found keys)) ->
  In k found \/ In k (JsObj.names keys).
Proof.
  induction found as [|x found IH]; intros keys k Hin; [now right|].
  cbn [fold_left] in Hin. apply IH in Hin as [Hin|Hin]; [left; now right|].
  apply match_key_names_from in Hin as [->|Hin]; [left; now left|now right].
Qed.

(** Every key found is a key of some word of the Collection. *)
Lemma match_keys_names_from index this k :
  In k (JsObj.names (match_keys_own index this)) -> uses_key k this = true.
Proof.
  unfold match_keys_own.
  apply (fold_left_inv
           (fun keys => In k (JsObj.names keys) -> uses_key k this = true)).
  - intros [].
  - intros keys wr _ IH Hin. unfold match_word_own in Hin.
    destruct (JsObj.get (fst wr) (collection this)) as [found|] eqn:Hget;
      [|now apply IH].
    apply match_key_loop_names_from in Hin as [Hin|Hin]; [|now apply IH].
    unfold uses_key. apply existsb_exists.
    exists (fst wr, found). split; [now apply get_some_in|].
    apply existsb_exists. exists k. split; [exact Hin|apply String.eqb_refl].
Qed.

(** Away from the name "length", the scores of all the keys are stored. *)
Lemma match_nb_keywords_stores str this ks :
  forall nb_keywords, ~ In "length" ks ->
  exists nb_keywords',
    match_nb_keywords str this ks nb_keywords = Normal nb_keywords'
    /\ forall k,
         In k ks \/ In k (JsObj.names (JsArray.props nb_keywords)) ->
         In k (JsObj.names (JsArray.props nb_keywords')).
Proof.
  induction ks as [|key ks IH]; intros nb_keywords Hlen.
  - exists nb_keywords. split; [reflexivity|]. now intros k [[]|Hk].
  - cbn [match_nb_keywords]. unfold JsArray.set.
    destruct (String.eqb_spec key "length") as [->|_].
    { exfalso. apply Hlen. now left. }
    assert (Hks : ~ In "length" ks) by (intros H; apply Hlen; now right).
    set (v := _nb_keywords_found key str this).
    assert (Hstep : forall a : JsArray.t,
              JsArray.props a = JsObj.set key v (JsArray.props nb_keywords) ->
              exists nb_keywords',
                match_nb_keywords str this ks a = Normal nb_keywords'
                /\ forall k,
                     In k (key :: ks)
                     \/ In k (JsObj.names (JsArray.props nb_keywords)) ->
                     In k (JsObj.names (JsArray.props nb_keywords'))).
    { intros a Ha. destruct (IH a Hks) as (a' & Hrun & Hnames).
      exists a'. split; [exact Hrun|]. intros k Hk. apply Hnames.
      rewrite Ha, in_names_set. simpl in Hk. intuition. }
    destruct (JsObj.array_index key); now apply Hstep.
Qed.

Lemma in_sort_insert x l y : In y (sort_insert x l) <-> y = x \/ In y l.
Proof.
  induction l as [|z l IH]; simpl; [intuition|].
  destruct (snd z <=? snd x)%N; simpl; [intuition|]. rewrite IH. intuition.
Qed.

(** Sorting loses no element. *)
Lemma in_sort_assoc_array nb_keywords y :
  In y (_sort_assoc_array nb_keywords) <-> In y (JsArray.props nb_keywords).
Proof.
  unfold _sort_assoc_array.
  induction (JsArray.props nb_keywords) as [|x l IH]; simpl; [tauto|].
  rewrite in_sort_insert, IH. intuition.
Qed.

Lemma match_all_names keys size' key :
  In key (match_all keys size') -> In key (JsObj.names keys).
Proof.
  unfold match_all, JsObj.names. rewrite !in_map_iff.
  intros (kl & Hk & Hin). apply filter_In in Hin. exists kl. tauto.
Qed.



(** ** The loop that counts occurrences ends *)

Lemma prefix_length w : forall s,
  String.prefix w s = true -> (String.length w <= String.length s)%nat.
Proof.
  induction w as [|c w IH]; intros [|d s]; simpl; try lia; try discriminate.
  destruct (ascii_dec c d); [|discriminate].
  intros H. apply IH in H. lia.
Qed.

Lemma search_bounds w : forall s pos,
  (-1 < Str.search w s pos)%Z ->
  (Z.of_nat pos <= Str.search w s pos)%Z
  /\ (Str.search w s pos + Z.of_nat (String.length w)
      <= Z.of_nat (pos + String.length s))%Z.
Proof.
  induction s as [|c s IH]; intros pos; cbn [Str.search].
  - destruct (String.prefix w "") eqn:Hpre; [|lia].
    apply prefix_length in Hpre. simpl in *. lia.
  - destruct (String.prefix w (String c s)) eqn:Hpre.
    + apply prefix_length in Hpre. lia.
    + intros H. specialize (IH (S pos) H). simpl String.length. lia.
Qed.

Lemma length_drop n : forall s,
  String.length (Str.drop n s) = (String.length s - n)%nat.
Proof.
  induction n as [|n IH]; intros [|c s]; simpl; try reflexivity. apply IH.
Qed.

Lemma indexOf_bounds s w start :
  (start <= String.length s)%nat ->
  (-1 < Str.indexOf s w start)%Z ->
  (Z.of_nat start <= Str.indexOf s w start)%Z
  /\ (Str.indexOf s w start + Z.of_nat (String.length w)
      <= Z.of_nat (String.length s))%Z.
Proof.
  intros Hstart. unfold Str.indexOf. rewrite (Nat.min_l _ _ Hstart).
  intros H. apply search_bounds in H. rewrite length_drop in H. lia.
Qed.

(** Once the fuel exceeds what is left of the text, more fuel changes
    nothing: the loop has ended by itself. *)
Lemma count_from_fuel string word :
  word <> "" ->
  forall fuel fuel' start nb_found,
  (start <= String.length string < start + fuel)%nat ->
  (fuel <= fuel')%nat ->
  count_from fuel string word start nb_found
  = count_from fuel' string word start nb_found.
Proof.
  intros Hword.
  assert (Hlen : (1 <= String.length word)%nat)
    by (destruct word; [contradiction|simpl; lia]).
  induction fuel as [|fuel IH]; intros [|fuel'] start nb_found Hstart Hfuel;
    try lia.
  cbn [count_from].
  destruct (Str.indexOf string word start >? -1)%Z eqn:Hfound;
    [|reflexivity].
  apply Z.gtb_lt in Hfound.
  destruct (indexOf_bounds string word start (proj1 Hstart) Hfound).
  apply IH; lia.
Qed.

Lemma count_from_enough string word nb_found fuel :
  word <> "" -> (S (String.length string) <= fuel)%nat ->
  count_from fuel string word 0 nb_found
  = count_from (S (String.length string)) string word 0 nb_found.
Proof.
  intros Hword Hfuel. symmetry. apply count_from_fuel; [exact Hword|lia|lia].
Qed.

(** ** The count of query words *)

Lemma in_set_pair {V : Type} k (v : V) o kv :
  In kv (JsObj.set k v o) -> kv = (k, v) \/ In kv o.
Proof.
  unfold JsObj.set. destruct (JsObj.has k o).
  - induction o as [|[k0 v0] o IH]; simpl; [tauto|].
    destruct (String.eqb_spec k k0) as [->|Hne]; simpl.
    + intros [<-|H]; [now left|now right; right].
    + intros [<-|H]; [now right; left|]. destruct (IH H); tauto.
  - destruct (JsObj.array_index k).
    + apply in_insert_index.
    + rewrite in_app_iff. simpl. intros [H|[<-|[]]]; [now right|now left].
Qed.

Lemma Forall_set_pair {V : Type} (P : string * V -> Prop) k (v : V) o :
  Forall P o -> P (k, v) -> Forall P (JsObj.set k v o).
Proof.
  rewrite !Forall_forall. intros Ho Hv kv Hin.
  apply in_set_pair in Hin as [->|Hin]; [exact Hv|now apply Ho].
Qed.

Lemma existsb_eqb_in w l : existsb (String.eqb w) l = true <-> In w l.
Proof.
  rewrite existsb_exists. split.
  - intros (x & Hin & Heq). apply String.eqb_eq in Heq. now subst.
  - intros Hin. exists w. split; [exact Hin|apply String.eqb_refl].
Qed.

Lemma indexOf_zero_prefix w p :
  Str.indexOf w p 0 = 0%Z -> String.prefix p w = true.
Proof.
  unfold Str.indexOf. cbn [Nat.min Str.drop].
  destruct (String.prefix p w) eqn:Hpre; [reflexivity|].
  destruct w as [|c w]; cbn [Str.search]; rewrite Hpre; [discriminate|].
  intros H. pose proof (search_bounds p w 1) as Hb. rewrite H in Hb. lia.
Qed.

Section QueryWords.
Variables (this : Jsse) (index_tmp : JsObj.t IndexRecord.t).
Let tokens : list string := JsObj.names index_tmp.
Hypothesis tokens_nodup : NoDup tokens.
Hypothesis tokens_prefix_free :
  forall p t, In p tokens -> In t tokens -> String.prefix p t = true -> p = t.

(** What the loops of [_indexAgainst] keep true of the expansion. *)
Let expanding (index : JsObj.t Partial.t) : Prop :=
  NoDup (JsObj.names index) /\ seeds_tagged tokens index.

Lemma expanding_seeds :
  forall l index, incl l index_tmp -> expanding index ->
  expanding (fold_left _indexAgainst_seed l index)
  /\ forall t, In t (JsObj.names l) \/ In t (JsObj.names index) ->
       In t (JsObj.names (fold_left _indexAgainst_seed l index)).
Proof.
  induction l as [|[t r] l IH]; intros index Hincl Hexp.
  - split; [exact Hexp|]. now intros t [[]|H].
  - cbn [fold_left].
    assert (Hstep : expanding (_indexAgainst_seed index (t, r))).
    { destruct Hexp as [Hnd Htag]. split; [now apply nodup_set|].
      apply Forall_set_pair; [exact Htag|]. simpl.
      rewrite String.eqb_refl. symmetry. apply existsb_eqb_in.
      unfold tokens, JsObj.names. change t with (fst (t, r)).
      apply in_map, Hincl. now left. }
    destruct (IH _ (fun x Hx => Hincl x (or_intror Hx)) Hstep) as [Hexp' Hin].
    split; [exact Hexp'|]. intros t' Ht'. apply Hin. simpl in Ht'.
    unfold _indexAgainst_seed. rewrite in_names_set. intuition.
Qed.

Lemma expanding_partial word :
  forall l index, incl l index_tmp -> expanding index ->
  expanding (fold_left (_indexAgainst_partial word) l index)
  /\ forall t, In t (JsObj.names index) ->
       In t (JsObj.names (fold_left (_indexAgainst_partial word) l index)).
Proof.
  induction l as [|[p r] l IH]; intros index Hincl Hexp.
  - now split.
  - cbn [fold_left].
    assert (Hp : In p tokens).
    { unfold tokens, JsObj.names. change p with (fst (p, r)).
      apply in_map, Hincl. now left. }
    assert (Hstep : expanding (_indexAgainst_partial word index (p, r))
                    /\ forall t, In t (JsObj.names index) ->
                         In t (JsObj.names
                                 (_indexAgainst_partial word index (p, r)))).
    { unfold _indexAgainst_partial.
      destruct (Z.eqb_spec (Str.indexOf word p 0) 0) as [Hzero|_];
        [|now split].
      apply indexOf_zero_prefix in Hzero.
      destruct Hexp as [Hnd Htag]. split; [split|].
      - now apply nodup_set.
      - apply Forall_set_pair; [exact Htag|]. simpl.
        destruct (existsb (String.eqb word) tokens) eqn:Hword.
        + apply existsb_eqb_in in Hword. apply String.eqb_eq. symmetry.
          now apply tokens_prefix_free.
        + apply String.eqb_neq. intros ->.
          apply existsb_eqb_in in Hp. congruence.
      - intros t Ht. apply in_names_set. now right. }
    destruct Hstep as [Hstep Hgrow].
    destruct (IH _ (fun x Hx => Hincl x (or_intror Hx)) Hstep) as [Hexp' Hin].
    split; [exact Hexp'|]. intros t Ht. now apply Hin, Hgrow.
Qed.

Lemma expanding_words :
  forall coll index, expanding index ->
  expanding (fold_left (_indexAgainst_word index_tmp) coll index)
  /\ forall t, In t (JsObj.names index) ->
       In t (JsObj.names
               (fold_left (_indexAgainst_word index_tmp) coll index)).
Proof.
  induction coll as [|we coll IH]; intros index Hexp; [now split|].
  cbn [fold_left]. unfold _indexAgainst_word at 2 4.
  destruct (expanding_partial (fst we) index_tmp index (incl_refl _) Hexp)
    as [Hstep Hgrow].
  destruct (IH _ Hstep) as [Hexp' Hin].
  split; [exact Hexp'|]. intros t Ht. now apply Hin, Hgrow.
Qed.

(** The records counted by [match] are as many as the tokens. *)
Lemma match_size_tokens index :
  expanding index -> incl tokens (JsObj.names index) ->
  match_size index = Z.of_nat (List.length tokens).
Proof.
  intros [Hnd Htag] Hincl. unfold match_size. rewrite match_size_from.
  simpl. f_equal.
  rewrite (filter_ext_in _
             (fun wp => existsb (String.eqb (fst wp)) tokens)).
  2:{ intros wp Hin. unfold seeds_tagged in Htag.
      rewrite Forall_forall in Htag. now apply Htag. }
  rewrite <- (length_map fst).
  apply Permutation_length, NoDup_Permutation.
  - assert (Hmap : forall l : JsObj.t Partial.t,
              map fst
                (List.filter
                   (fun wp : string * Partial.t =>
                      existsb (String.eqb (fst wp)) tokens) l)
              = List.filter (fun w => existsb (String.eqb w) tokens)
                  (map fst l)).
    { induction l as [|[w p] l IHl]; simpl; [reflexivity|].
      destruct (existsb (String.eqb w) tokens); simpl; now rewrite IHl. }
    rewrite Hmap. now apply NoDup_filter.
  - exact tokens_nodup.
  - intros w. rewrite in_map_iff. split.
    + intros ([w' p] & <- & Hin). apply filter_In in Hin as [_ Hin].
      now apply existsb_eqb_in.
    + intros Hw. pose proof (Hincl w Hw) as Hin.
      unfold JsObj.names in Hin. apply in_map_iff in Hin as (wp & <- & Hin).
      exists wp. split; [reflexivity|]. apply filter_In. split; [exact Hin|].
      now apply existsb_eqb_in.
Qed.

Lemma match_size_index_tmp :
  match_size
    (fold_left (_indexAgainst_word index_tmp) (collection this)
       (fold_left _indexAgainst_seed index_tmp []))
  = Z.of_nat (List.length tokens).
Proof.
  assert (Hnil : expanding []) by (split; constructor).
  destruct (expanding_seeds index_tmp [] (incl_refl _) Hnil) as [Hseed Hin].
  destruct (expanding_words (collection this) _ Hseed) as [Hexp Hgrow].
  apply match_size_tokens; [exact Hexp|].
  intros t Ht. apply Hgrow, Hin. now left.
Qed.

End QueryWords.

Lemma in_distinct x l : In x (distinct l) <-> In x l.
Proof.
  induction l as [|y l IH]; simpl; [tauto|].
  destruct (existsb (String.eqb y) l) eqn:Hy; simpl; rewrite IH.
  - apply existsb_eqb_in in Hy. split; [tauto|]. now intros [<-|H].
  - tauto.
Qed.

Lemma nodup_distinct l : NoDup (distinct l).
Proof.
  induction l as [|y l IH]; simpl; [constructor|].
  destruct (existsb (String.eqb y) l) eqn:Hy; [exact IH|].
  constructor; [|exact IH]. rewrite in_distinct. intros Hin.
  apply existsb_eqb_in in Hin. congruence.
Qed.

Lemma _index_word_names index x w :
  In w (JsObj.names (_index_word index x))
  <-> In w (JsObj.names index)
      \/ (w = normalize x /\ (2 <= String.length w)%nat
          /\ JsObj.inherited w = false).
Proof.
  unfold _index_word.
  destruct (Nat.ltb_spec (String.length (normalize x)) 2) as [Hlt|Hge].
  - split; [tauto|]. intros [H|(-> & H & _)]; [exact H|lia].
  - destruct (JsObj.get (normalize x) index) as [r|] eqn:Hget.
    + rewrite in_names_set. split.
      * intros [->|H]; left; [|exact H]. eapply get_some_names; eauto.
      * intros [H|(-> & _ & _)]; [now right|now left].
    + destruct (JsObj.inherited (normalize x)) eqn:Hown.
      * split; [tauto|]. intros [H|(-> & _ & H)]; [exact H|congruence].
      * rewrite in_names_set. split.
        -- intros [->|H]; [right; now repeat split|now left].
        -- intros [H|(-> & _ & _)]; [now right|now left].
Qed.

Lemma _index_loop_names l :
  forall index w,
  In w (JsObj.names (fold_left _index_word l index))
  <-> In w (JsObj.names index)
      \/ (In w (List.filter (fun w => (2 <=? String.length w)%nat)
                  (map normalize l))
          /\ JsObj.inherited w = false).
Proof.
  induction l as [|x l IH]; intros index w; cbn [fold_left map List.filter].
  - simpl. tauto.
  - rewrite IH, _index_word_names.
    destruct (Nat.leb_spec 2 (String.length (normalize x))) as [Hge|Hlt];
      cbn [In].
    + split.
      * intros [[H|(-> & H & Hown)]|[H Hown]];
          [now left|right; split; [now left|exact Hown]
          |right; split; [now right|exact Hown]].
      * intros [H|[[<-|H] Hown]];
          [left; now left|left; right; now repeat split|right; now split].
    + split; [|tauto].
      intros [[H|(-> & H & _)]|H]; [tauto|lia|tauto].
Qed.

(** The words of the index of a query are its tokens, but for the names of
    inherited members. *)
Lemma _index_names s w :
  In w (JsObj.names (_index (Some s)))
  <-> In w (query_tokens s) /\ JsObj.inherited w = false.
Proof.
  unfold _index, query_tokens. rewrite in_distinct.
  destruct (String.eqb_spec s "") as [->|_]; [simpl; tauto|].
  rewrite _index_loop_names. cbn [JsObj.names map In]. tauto.
Qed.

Lemma _index_length s :
  existsb JsObj.inherited (query_tokens s) = false ->
  List.length (JsObj.names (_index (Some s))) = List.length (query_tokens s).
Proof.
  intros Hown. apply Permutation_length, NoDup_Permutation.
  - apply _index_wf.
  - apply nodup_distinct.
  - intros w. rewrite _index_names. split; [tauto|]. intros Hw.
    split; [exact Hw|]. destruct (JsObj.inherited w) eqn:Hi; [|reflexivity].
    assert (Hex : existsb JsObj.inherited (query_tokens s) = true).
    { apply existsb_exists. now exists w. }
    congruence.
Qed.

(** What holds of C3: in the environment of the language, when no token of
    the query is a proper prefix of another or the name of an inherited
    member, match counts as many query words as the query has distinct
    normalized tokens of length 2 or more, whatever the Collection holds. *)
Theorem match_size_prefix_free this s :
  env this = Standard ->
  existsb JsObj.inherited (query_tokens s) = false ->
  prefix_free (query_tokens s) = true ->
  match_size (_indexAgainst (Some s) this)
  = Z.of_nat (List.length (query_tokens s)).
Proof.
  intros _ Hown Hfree. unfold _indexAgainst.
  rewrite <- (_index_length _ Hown).
  apply match_size_index_tmp; [apply _index_wf|].
  intros p t Hp Ht Hpre. apply _index_names in Hp as [Hp _], Ht as [Ht _].
  unfold prefix_free in Hfree. rewrite forallb_forall in Hfree.
  specialize (Hfree p Hp). rewrite forallb_forall in Hfree.
  specialize (Hfree t Ht). rewrite Hpre in Hfree. now apply String.eqb_eq.
Qed.

Lemma match_size_prefix_free_witness :
  match_size (_indexAgainst (Some "red car") abc_abd)
  = Z.of_nat (List.length (query_tokens "red car")).
Proof.
  apply match_size_prefix_free; vm_compute; reflexivity.
Defined.

(** ** The helpers on arrays *)

Lemma indexOf_from_spec item array :
  forall i,
  (indexOf_from array item i = (-1)%Z /\ ~ In item array)
  \/ (exists n,
        indexOf_from array item i = (i + Z.of_nat n)%Z
        /\ nth_error array n = Some item
        /\ ~ In item (firstn n array))
  \/ (i < 0)%Z.
Proof.
  induction array as [|x array IH]; intros i; simpl.
  - left. split; [reflexivity|tauto].
  - destruct (Z_lt_dec i 0) as [Hneg|Hpos]; [right; right; exact Hneg|].
    destruct (String.eqb_spec x item) as [->|Hne].
    + right. left. exists 0%nat. simpl. split; [lia|].
      split; [reflexivity|tauto].
    + destruct (IH (i + 1)%Z) as [[Hr Hnot]|[(n & Hr & Hnth & Hfirst)|Hi]].
      * left. split; [exact Hr|]. intros [H|H]; [contradiction|tauto].
      * right. left. exists (S n). simpl. split; [lia|]. split; [exact Hnth|].
        intros [H|H]; [contradiction|tauto].
      * lia.
Qed.

Lemma indexOf_absent array item :
  indexOf array item = (-1)%Z <-> ~ In item array.
Proof.
  unfold indexOf.
  destruct (indexOf_from_spec item array 0)
    as [[Hr Hnot]|[(n & Hr & Hnth & Hfirst)|Hi]]; [tauto| |lia].
  assert (Hin : In item array) by (eapply nth_error_In; eauto).
  split; [lia|tauto].
Qed.

(** The helper indexOf answers -1 when the item is not in the array, and
    otherwise the position of the first element that is the item. *)
Theorem indexOf_first array item :
  (indexOf array item = (-1)%Z /\ ~ In item array)
  \/ (exists n,
        indexOf array item = Z.of_nat n
        /\ nth_error array n = Some item
        /\ ~ In item (firstn n array)).
Proof.
  unfold indexOf.
  destruct (indexOf_from_spec item array 0)
    as [[Hr Hnot]|[(n & Hr & Hnth & Hfirst)|Hi]]; [now left| |lia].
  right. exists n. now repeat split.
Qed.

Lemma before_split item l :
  exists rest,
    l = before item l ++ rest
    /\ ~ In item (before item l)
    /\ (rest = [] \/ exists rest', rest = item :: rest').
Proof.
  induction l as [|x l (rest & Hl & Hnot & Hrest)]; simpl.
  - exists []. split; [reflexivity|]. split; [tauto|now left].
  - destruct (String.eqb_spec x item) as [->|Hne].
    + exists (item :: l). split; [reflexivity|]. split; [tauto|].
      right. now exists l.
    + exists rest. simpl. split; [now rewrite <- Hl|]. split; [|exact Hrest].
      intros [H|H]; [contradiction|tauto].
Qed.

(** The helper removeFromArray leaves the elements in front of the first
    occurrence of the item and nothing else: what it leaves does not hold the
    item, and what it drops is nothing (the item was not there) or starts
    with the item. *)
Theorem removeFromArray_cuts array item :
  exists rest,
    array = removeFromArray array item ++ rest
    /\ ~ In item (removeFromArray array item)
    /\ (rest = [] \/ exists rest', rest = item :: rest').
Proof. rewrite removeFromArray_before. apply before_split. Qed.

(** ** Normalized words *)

Ltac each_ascii c := destruct c as [[] [] [] [] [] [] [] []].

Lemma lower_kept_word c :
  Str.is_kept (Str.lower_char c) = true ->
  is_word_char (Str.lower_char c) = true.
Proof. each_ascii c; vm_compute; intros H; (reflexivity || discriminate). Qed.

Lemma word_char_lower c : is_word_char c = true -> Str.lower_char c = c.
Proof. each_ascii c; vm_compute; intros H; (reflexivity || discriminate). Qed.

Lemma word_char_kept c : is_word_char c = true -> Str.is_kept c = true.
Proof. each_ascii c; vm_compute; intros H; (reflexivity || discriminate). Qed.

Lemma lower_char_space c :
  Ascii.eqb " " (Str.lower_char c) = Ascii.eqb " " c.
Proof. each_ascii c; vm_compute; reflexivity. Qed.

Lemma all_chars_cons f c s :
  all_chars f (String c s) = f c && all_chars f s.
Proof. reflexivity. Qed.

Lemma all_filter_lower s :
  all_chars is_word_char (Str.filter Str.is_kept (Str.toLowerCase s)) = true.
Proof.
  induction s as [|c s IH]; [reflexivity|]. cbn [Str.toLowerCase Str.filter].
  destruct (Str.is_kept (Str.lower_char c)) eqn:Hk; [|exact IH].
  rewrite all_chars_cons, IH, (lower_kept_word _ Hk). reflexivity.
Qed.

Lemma all_trim_left f s :
  all_chars f s = true -> all_chars f (Str.trim_left s) = true.
Proof.
  induction s as [|c s IH]; [easy|]. cbn [Str.trim_left].
  destruct (Str.is_space c); [|easy].
  rewrite all_chars_cons. intros H. apply andb_true_iff in H. now apply IH.
Qed.

Lemma all_trim_right f s :
  all_chars f s = true -> all_chars f (Str.trim_right s) = true.
Proof.
  induction s as [|c s IH]; [easy|]. cbn [Str.trim_right].
  rewrite all_chars_cons. intros H. apply andb_true_iff in H as [Hc Hs].
  specialize (IH Hs). destruct (Str.trim_right s) as [|d r].
  - destruct (Str.is_space c); [reflexivity|].
    now rewrite all_chars_cons, Hc.
  - now rewrite all_chars_cons, Hc, IH.
Qed.

Lemma toLowerCase_word s :
  all_chars is_word_char s = true -> Str.toLowerCase s = s.
Proof.
  induction s as [|c s IH]; [reflexivity|]. rewrite all_chars_cons.
  intros H. apply andb_true_iff in H as [Hc Hs]. cbn [Str.toLowerCase].
  now rewrite (word_char_lower _ Hc), (IH Hs).
Qed.

Lemma filter_word s :
  all_chars is_word_char s = true -> Str.filter Str.is_kept s = s.
Proof.
  induction s as [|c s IH]; [reflexivity|]. rewrite all_chars_cons.
  intros H. apply andb_true_iff in H as [Hc Hs]. cbn [Str.filter].
  now rewrite (word_char_kept _ Hc), (IH Hs).
Qed.

Lemma first_clean_trim_left s : first_clean (Str.trim_left s) = true.
Proof.
  induction s as [|c s IH]; [reflexivity|]. cbn [Str.trim_left].
  destruct (Str.is_space c) eqn:Hc; [exact IH|]. simpl. now rewrite Hc.
Qed.

Lemma first_clean_trim_right s :
  first_clean s = true -> first_clean (Str.trim_right s) = true.
Proof.
  destruct s as [|c s]; [easy|]. cbn [Str.trim_right first_clean].
  intros Hc. destruct (Str.trim_right s); [|exact Hc].
  destruct (Str.is_space c) eqn:Hsp; [discriminate|]. simpl. now rewrite Hsp.
Qed.

Lemma last_clean_trim_right s : last_clean (Str.trim_right s) = true.
Proof.
  induction s as [|c s IH]; [reflexivity|]. cbn [Str.trim_right].
  destruct (Str.trim_right s) as [|d r].
  - destruct (Str.is_space c) eqn:Hc; [reflexivity|]. simpl. now rewrite Hc.
  - exact IH.
Qed.

Lemma trim_left_clean s : first_clean s = true -> Str.trim_left s = s.
Proof.
  destruct s as [|c s]; [easy|]. simpl.
  now destruct (Str.is_space c).
Qed.

Lemma trim_right_clean s : last_clean s = true -> Str.trim_right s = s.
Proof.
  induction s as [|c s IH]; [easy|]. cbn [last_clean Str.trim_right].
  destruct s as [|d s].
  - simpl. now destruct (Str.is_space c).
  - intros H. now rewrite (IH H).
Qed.

Lemma clean_ends_trim s : clean_ends (Str.trim s) = true.
Proof.
  unfold clean_ends, Str.trim.
  rewrite first_clean_trim_right by apply first_clean_trim_left.
  now rewrite last_clean_trim_right.
Qed.

Lemma trim_clean s : clean_ends s = true -> Str.trim s = s.
Proof.
  unfold clean_ends, Str.trim. intros H. apply andb_true_iff in H as [Hf Hl].
  now rewrite (trim_left_clean _ Hf), (trim_right_clean _ Hl).
Qed.

(** The word before the test against the stop list. *)
Lemma normalize_cases word :
  let w := Str.trim (Str.filter Str.is_kept (Str.toLowerCase word)) in
  (normalize word = w /\ indexOf stop_list w = (-1)%Z)
  \/ (normalize word = "" /\ indexOf stop_list w <> (-1)%Z).
Proof.
  cbv zeta. unfold normalize.
  destruct (Z.eqb_spec
              (indexOf stop_list
                 (Str.trim (Str.filter Str.is_kept (Str.toLowerCase word))))
              (-1)) as [He|Hne]; simpl; [left|right]; now split.
Qed.

Lemma normalize_word word :
  all_chars is_word_char (normalize word) = true
  /\ clean_ends (normalize word) = true
  /\ ~ In (normalize word) stop_list.
Proof.
  destruct (normalize_cases word) as [[-> Hstop]|[-> _]].
  - split; [|split].
    + unfold Str.trim. apply all_trim_right, all_trim_left, all_filter_lower.
    + apply clean_ends_trim.
    + now apply indexOf_absent.
  - split; [reflexivity|]. split; [reflexivity|].
    apply indexOf_absent. reflexivity.
Qed.

(** What normalize returns holds only lower-case letters, digits,
    underscores, hyphens and white space, has no white space at either end,
    and is no word of the stop list. *)
Theorem normalize_shape word :
  all_chars is_word_char (normalize word) = true
  /\ clean_ends (normalize word) = true
  /\ ~ In (normalize word) stop_list.
Proof. apply normalize_word. Qed.

Lemma normalize_fixed w :
  all_chars is_word_char w = true -> clean_ends w = true ->
  ~ In w stop_list -> normalize w = w.
Proof.
  intros Hall Hclean Hstop. unfold normalize.
  rewrite (toLowerCase_word _ Hall), (filter_word _ Hall).
  rewrite (trim_clean _ Hclean).
  apply indexOf_absent in Hstop. now rewrite Hstop.
Qed.

(** Normalizing a normalized word changes nothing. *)
Lemma normalize_again word : normalize (normalize word) = normalize word.
Proof.
  destruct (normalize_word word) as (Hall & Hclean & Hstop).
  now apply normalize_fixed.
Qed.

(** Normalizing a normalized word changes nothing. *)
Theorem normalize_idempotent word :
  normalize (normalize word) = normalize word.
Proof. apply normalize_again. Qed.

(** ** What an index holds *)

Lemma occurrences_app w l l' :
  occurrences w (l ++ l') = (occurrences w l + occurrences w l')%nat.
Proof. unfold occurrences. now rewrite filter_app, length_app. Qed.

Lemma occurrences_one w x :
  occurrences w [x] = if String.eqb w x then 1%nat else 0%nat.
Proof. unfold occurrences. simpl. now destruct (String.eqb w x). Qed.

Lemma _index_word_counts index x done :
  (forall w, JsObj.get w index = index_entry w (occurrences w done)) ->
  forall w,
  JsObj.get w (_index_word index x)
  = index_entry w (occurrences w (done ++ [normalize x])).
Proof.
  intros Hindex w. rewrite occurrences_app, occurrences_one.
  unfold _index_word.
  destruct (Nat.ltb_spec (String.length (normalize x)) 2) as [Hshort|Hlong].
  - rewrite Hindex. destruct (String.eqb_spec w (normalize x)) as [->|_].
    + unfold index_entry.
      destruct (Nat.leb_spec 2 (String.length (normalize x))); [lia|easy].
    + now rewrite Nat.add_0_r.
  - pose proof (Hindex (normalize x)) as Hx.
    destruct (String.eqb_spec w (normalize x)) as [->|Hne].
    + unfold index_entry in *.
      destruct (Nat.leb_spec 2 (String.length (normalize x))) as [_|]; [|lia].
      destruct (JsObj.inherited (normalize x)); cbn [negb andb] in *;
        [now rewrite Hx|].
      destruct (Nat.ltb_spec 0 (occurrences (normalize x) done + 1));
        [|lia].
      destruct (Nat.ltb_spec 0 (occurrences (normalize x) done))
        as [Hpos|Hzero]; rewrite Hx, get_set_same; cbn [IndexRecord.weight
          IndexRecord.count]; do 2 f_equal; lia.
    + rewrite Nat.add_0_r, <- Hindex.
      destruct (JsObj.get (normalize x) index);
        [|destruct (JsObj.inherited (normalize x)); [reflexivity|]];
        rewrite get_set; now destruct (String.eqb_spec w (normalize x)).
Qed.

Lemma _index_loop_counts l :
  forall index done,
  (forall w, JsObj.get w index = index_entry w (occurrences w done)) ->
  forall w,
  JsObj.get w (fold_left _index_word l index)
  = index_entry w (occurrences w (done ++ map normalize l)).
Proof.
  induction l as [|x l IH]; intros index done Hindex w; cbn [fold_left map].
  - now rewrite app_nil_r.
  - rewrite (IH _ (done ++ [normalize x])).
    + now rewrite <- app_assoc.
    + now apply _index_word_counts.
Qed.

Lemma index_entry_none w : index_entry w 0 = None.
Proof. unfold index_entry. now rewrite andb_false_r. Qed.

Lemma _index_get s w :
  JsObj.get w (_index (Some s))
  = index_entry w (occurrences w (normalized_words s)).
Proof.
  unfold _index, normalized_words.
  destruct (String.eqb_spec s "") as [->|_].
  - cbn [Str.split map JsObj.get]. rewrite occurrences_one.
    destruct (String.eqb_spec w (normalize "")) as [->|_];
      [reflexivity|now rewrite index_entry_none].
  - rewrite (_index_loop_counts _ [] []); [reflexivity|].
    intros w'. symmetry. apply index_entry_none.
Qed.

(** The index of a text has a record for a word exactly when the word has
    two code units or more, does not name an inherited member ([constructor]
    and [__proto__] are such words) and is the normalized form of a token of
    the text; the weight of the record is the length of the word and its count is the
    number of tokens that normalize to the word. *)
Theorem _index_counts s w :
  JsObj.get w (_index (Some s))
  = index_entry w (occurrences w (normalized_words s)).
Proof. apply _index_get. Qed.

(** ** What add and remove do to each word and to each key *)

(** [add] merges the index of the text into the Collection it found. *)
Lemma add_merges str key this :
  exists this',
    add str key this = _merge (_index str) key this'
    /\ size this' = size this
    /\ collection this' = collection this.
Proof.
  unfold add. eexists. split; [reflexivity|].
  assert (H : forall that : Jsse,
            size (if taints str then tainted that else that) = size that
            /\ collection (if taints str then tainted that else that)
               = collection that)
    by (intros that; now destruct (taints str)).
  destruct (given key) as [k|]; cbv zeta.
  - destruct (H (store_key k str this)) as [-> ->]. apply store_key_fields.
  - apply H.
Qed.

(** The Collection that [_remove] leaves depends on the Collection and on
    nothing else. *)
Lemma _remove_frame index key :
  forall this this',
  size this = size this' -> collection this = collection this' ->
  size (_remove index key this) = size (_remove index key this')
  /\ collection (_remove index key this)
     = collection (_remove index key this').
Proof.
  unfold _remove.
  induction index as [|[w r] index IH]; intros this this' Hs Hc; [now split|].
  cbn [fold_left]. apply IH; unfold _remove_word; rewrite <- Hc;
    (destruct (JsObj.get w (collection this)) as [e|]; [|assumption]);
    destruct (WordEntry.count e - 1 =? 0)%Z; cbn; congruence.
Qed.

Lemma add_get this str key w :
  JsObj.get w (collection (add str key this))
  = match JsObj.get w (_index str) with
    | Some r => Some (merged key r (JsObj.get w (collection this)))
    | None => JsObj.get w (collection this)
    end.
Proof.
  destruct (add_merges str key this) as (this' & -> & _ & Hc).
  rewrite _merge_get by apply _index_wf. now rewrite Hc.
Qed.

(** After add(str, key) that leaves the environment of the language as it
    is, a word of the text has the entry it had with its count raised by 1
    and the key at the end of its keys, or, when it is new, the record of
    the index with the key as its only key; every other word has the entry
    it had. *)
Theorem add_entry this str key w :
  env (add str key this) = Standard ->
  JsObj.get w (collection (add str key this))
  = match JsObj.get w (_index str) with
    | Some r => Some (merged key r (JsObj.get w (collection this)))
    | None => JsObj.get w (collection this)
    end.
Proof. intros _. apply add_get. Qed.

Lemma add_entry_witness :
  env (add (Some "foo") (Some "c") foo_twice) = Standard
  /\ JsObj.get "foo" (collection (add (Some "foo") (Some "c") foo_twice))
     = match JsObj.get "foo" (_index (Some "foo")) with
       | Some r =>
           Some (merged (Some "c") r
                   (JsObj.get "foo" (collection foo_twice)))
       | None => JsObj.get "foo" (collection foo_twice)
       end.
Proof.
  assert (He : env (add (Some "foo") (Some "c") foo_twice) = Standard)
    by (vm_compute; reflexivity).
  split; [exact He|].
  exact (add_entry foo_twice (Some "foo") (Some "c") "foo" He).
Defined.

Lemma remove_collection this str key :
  collection (remove str key this)
  = if (size this =? 0)%Z then collection this
    else collection (_remove (_index str) key this).
Proof.
  unfold remove. destruct (size this =? 0)%Z; [reflexivity|]. cbv zeta.
  assert (H : collection
                (_remove (_index str) key
                   (if taints str then tainted this else this))
              = collection (_remove (_index str) key this)).
  { apply _remove_frame; now destruct (taints str). }
  now destruct (given key).
Qed.

Lemma remove_get this str key w :
  JsObj.get w (collection (remove str key this))
  = if (size this =? 0)%Z then JsObj.get w (collection this)
    else match JsObj.get w (_index str) with
         | Some _ =>
             match JsObj.get w (collection this) with
             | Some e => removed key e
             | None => None
             end
         | None => JsObj.get w (collection this)
         end.
Proof.
  rewrite remove_collection. destruct (size this =? 0)%Z; [reflexivity|].
  apply _remove_get, _index_wf.
Qed.

(** After remove(str, key) that leaves the environment of the language as
    it is, unless the size was 0, a word of the text that the Collection
    holds has its count lowered by 1 and its keys cut at the key, or is gone
    when the count reached 0; every other word has the entry it had.  When
    the size was 0 nothing changes. *)
Theorem remove_entry this str key w :
  env (remove str key this) = Standard ->
  JsObj.get w (collection (remove str key this))
  = if (size this =? 0)%Z then JsObj.get w (collection this)
    else match JsObj.get w (_index str) with
         | Some _ =>
             match JsObj.get w (collection this) with
             | Some e => removed key e
             | None => None
             end
         | None => JsObj.get w (collection this)
         end.
Proof. intros _. apply remove_get. Qed.

Lemma remove_entry_witness :
  env (remove (Some "foo") (Some "b") foo_twice) = Standard
  /\ JsObj.get "foo" (collection (remove (Some "foo") (Some "b") foo_twice))
     = if (size foo_twice =? 0)%Z
       then JsObj.get "foo" (collection foo_twice)
       else match JsObj.get "foo" (_index (Some "foo")) with
            | Some _ =>
                match JsObj.get "foo" (collection foo_twice) with
                | Some e => removed (Some "b") e
                | None => None
                end
            | None => JsObj.get "foo" (collection foo_twice)
            end.
Proof.
  assert (He : env (remove (Some "foo") (Some "b") foo_twice) = Standard)
    by (vm_compute; reflexivity).
  split; [exact He|].
  exact (remove_entry foo_twice (Some "foo") (Some "b") "foo" He).
Defined.

(** After add(str, key) in the environment of the language and leaving it
    as it is, the KeyStore holds the text under the key, when one is
    supplied and is not [__proto__], and what it held under every other key;
    under the key [__proto__] the assignment stores nothing. *)
Theorem add_keys this str key k' :
  env (add str key this) = Standard ->
  JsObj.get k' (keys (add str key this))
  = match given key with
    | Some k =>
        if String.eqb k "__proto__" then JsObj.get k' (keys this)
        else if String.eqb k' k then Some str else JsObj.get k' (keys this)
    | None => JsObj.get k' (keys this)
    end.
Proof.
  intros _. unfold add. rewrite _merge_keys.
  assert (H : forall that : Jsse,
            keys (if taints str then tainted that else that) = keys that)
    by (intros that; now destruct (taints str)).
  cbv zeta. rewrite H. destruct (given key) as [k|]; [|reflexivity].
  unfold store_key. destruct (String.eqb k "__proto__").
  - now destruct str.
  - apply get_set.
Qed.

Lemma add_keys_witness :
  env (add (Some "foo") (Some "__proto__") foo_twice) = Standard
  /\ JsObj.get "__proto__"
       (keys (add (Some "foo") (Some "__proto__") foo_twice))
     = None
  /\ JsObj.get "c" (keys (add (Some "foo") (Some "c") foo_twice))
     = Some (Some "foo").
Proof.
  assert (He : env (add (Some "foo") (Some "__proto__") foo_twice)
               = Standard)
    by (vm_compute; reflexivity).
  assert (He' : env (add (Some "foo") (Some "c") foo_twice) = Standard)
    by (vm_compute; reflexivity).
  split; [exact He|]. split.
  - exact (add_keys foo_twice (Some "foo") (Some "__proto__") "__proto__" He).
  - exact (add_keys foo_twice (Some "foo") (Some "c") "c" He').
Defined.

(** After remove(str, key) the KeyStore holds what it held under every key
    but the supplied one, whose entry is gone unless the size was 0. *)
Theorem remove_keys this str key k' :
  JsObj.get k' (keys (remove str key this))
  = if (size this =? 0)%Z then JsObj.get k' (keys this)
    else match given key with
         | Some k => if String.eqb k' k then None else JsObj.get k' (keys this)
         | None => JsObj.get k' (keys this)
         end.
Proof.
  unfold remove. destruct (size this =? 0)%Z; [reflexivity|]. cbv zeta.
  assert (H : keys (_remove (_index str) key
                      (if taints str then tainted this else this))
              = keys this).
  { rewrite _remove_keys. now destruct (taints str). }
  destruct (given key) as [k|]; simpl.
  - now rewrite get_delete, H.
  - now rewrite H.
Qed.

Lemma get_names_iff {V : Type} k (o : JsObj.t V) :
  In k (JsObj.names o) <-> JsObj.get k o <> None.
Proof.
  pose proof (get_none_names k o) as H.
  destruct (in_dec string_dec k (JsObj.names o)) as [Hin|Hout].
  - split; [|easy]. intros _ Hnone. now apply H in Hnone.
  - split; [easy|]. intros Hget. apply H in Hout. contradiction.
Qed.

(** The words after add(str, key) that leaves the environment of the
    language as it is are the words before and the words of the text, and
    the words before are still in the order they had. *)
Theorem add_getWords this str key :
  env (add str key this) = Standard ->
  (forall w,
     In w (getWords (add str key this))
     <-> In w (getWords this) \/ In w (JsObj.names (_index str)))
  /\ List.filter (fun w => JsObj.has w (collection this))
       (getWords (add str key this))
     = getWords this.
Proof.
  intros _. split.
  - intros w. unfold getWords. rewrite !get_names_iff, add_get.
    destruct (JsObj.get w (_index str)); [|tauto].
    split; [right|]; easy.
  - unfold getWords.
    destruct (add_merges str key this) as (this' & -> & _ & Hcoll).
    rewrite <- Hcoll. rewrite _merge_names by (intros w Hw; exact Hw).
    apply forallb_filter_id, forallb_forall. intros w Hin.
    apply get_names_iff in Hin. unfold JsObj.has.
    now destruct (JsObj.get w (collection this')).
Qed.

Lemma add_getWords_witness :
  env (add (Some "bar foo") (Some "c") foo_twice) = Standard
  /\ (forall w,
        In w (getWords (add (Some "bar foo") (Some "c") foo_twice))
        <-> In w (getWords foo_twice)
            \/ In w (JsObj.names (_index (Some "bar foo"))))
  /\ List.filter (fun w => JsObj.has w (collection foo_twice))
       (getWords (add (Some "bar foo") (Some "c") foo_twice))
     = getWords foo_twice.
Proof.
  assert (He : env (add (Some "bar foo") (Some "c") foo_twice) = Standard)
    by (vm_compute; reflexivity).
  split; [exact He|].
  exact (add_getWords foo_twice (Some "bar foo") (Some "c") He).
Defined.

(** The words after remove(str, key) that leaves the environment of the
    language as it is are the words before without the words that the call
    deletes, in the order they had: remove brings in no word and moves
    none. *)
Theorem remove_getWords this str key :
  env (remove str key this) = Standard ->
  getWords (remove str key this)
  = List.filter (stays str this) (getWords this).
Proof.
  intros _.
  unfold getWords. rewrite remove_collection. unfold stays.
  destruct (size this =? 0)%Z.
  - symmetry. apply forallb_filter_id, forallb_forall. reflexivity.
  - apply _remove_names; [apply _index_wf|].
    intros w e Hget. unfold JsObj.has, removed. rewrite Hget.
    destruct (JsObj.get w (_index str)); [|reflexivity].
    now destruct (WordEntry.count e - 1 =? 0)%Z.
Qed.

Lemma remove_getWords_witness :
  env (remove (Some "install") (Some "instruction") the_instruction)
  = Standard
  /\ getWords (remove (Some "install") (Some "instruction") the_instruction)
     = List.filter (stays (Some "install") the_instruction)
         (getWords the_instruction).
Proof.
  assert (He : env (remove (Some "install") (Some "instruction")
                       the_instruction)
               = Standard)
    by (vm_compute; reflexivity).
  split; [exact He|].
  exact (remove_getWords the_instruction (Some "install")
           (Some "instruction") He).
Defined.

(** ** The words that calls put into the Collection *)

Lemma has_space_cons c s :
  has_space (String c s) = Ascii.eqb " " c || has_space s.
Proof. reflexivity. Qed.

Lemma split_no_space s :
  Forall (fun x => has_space x = false) (Str.split " " s).
Proof.
  induction s as [|c s IH]; cbn [Str.split]; [now repeat constructor|].
  destruct (Ascii.eqb c " ") eqn:Hc; [now constructor|].
  destruct (Str.split " " s) as [|w ws].
  - repeat constructor. rewrite has_space_cons, Ascii.eqb_sym, Hc.
    reflexivity.
  - inversion IH as [|? ? Hw Hws]; subst. constructor; [|exact Hws].
    now rewrite has_space_cons, Ascii.eqb_sym, Hc.
Qed.

Lemma has_space_lower s : has_space (Str.toLowerCase s) = has_space s.
Proof.
  induction s as [|c s IH]; [reflexivity|]. cbn [Str.toLowerCase].
  now rewrite !has_space_cons, lower_char_space, IH.
Qed.

Lemma has_space_filter f s :
  has_space s = false -> has_space (Str.filter f s) = false.
Proof.
  induction s as [|c s IH]; [easy|]. rewrite has_space_cons.
  intros H. apply orb_false_iff in H as [Hc Hs]. cbn [Str.filter].
  destruct (f c); [|now apply IH]. now rewrite has_space_cons, Hc, IH.
Qed.

Lemma has_space_trim_left s :
  has_space s = false -> has_space (Str.trim_left s) = false.
Proof.
  induction s as [|c s IH]; [easy|]. cbn [Str.trim_left].
  destruct (Str.is_space c); [|easy]. rewrite has_space_cons.
  intros H. apply orb_false_iff in H. now apply IH.
Qed.

Lemma has_space_trim_right s :
  has_space s = false -> has_space (Str.trim_right s) = false.
Proof.
  induction s as [|c s IH]; [easy|]. rewrite has_space_cons.
  intros H. apply orb_false_iff in H as [Hc Hs]. specialize (IH Hs).
  cbn [Str.trim_right]. destruct (Str.trim_right s) as [|d r].
  - destruct (Str.is_space c); [reflexivity|].
    now rewrite has_space_cons, Hc.
  - now rewrite has_space_cons, Hc, IH.
Qed.

Lemma normalize_no_space x :
  has_space x = false -> has_space (normalize x) = false.
Proof.
  intros Hx. destruct (normalize_cases x) as [[-> _]|[-> _]]; [|reflexivity].
  unfold Str.trim.
  apply has_space_trim_right, has_space_trim_left, has_space_filter.
  now rewrite has_space_lower.
Qed.

Lemma occurrences_in w l : (0 < occurrences w l)%nat -> In w l.
Proof.
  unfold occurrences. induction l as [|x l IH]; simpl; [lia|].
  destruct (String.eqb_spec w x) as [->|_]; [now left|]. right. now apply IH.
Qed.

(** Every record of an index is the record of a normalized word without
    space and of two code units or more that names no inherited member, with
    the length of the word as weight and a count of 1 or more. *)
Lemma _index_records str : Forall record_ok (_index str).
Proof.
  destruct str as [s|]; [|constructor]. apply Forall_forall.
  intros [w r] Hin.
  apply in_get_nodup in Hin; [|apply _index_wf]. rewrite _index_get in Hin.
  unfold index_entry in Hin.
  destruct (Nat.leb_spec 2 (String.length w)) as [Hlen|]; [|discriminate].
  destruct (JsObj.inherited w) eqn:Hown; [discriminate|].
  destruct (Nat.ltb_spec 0 (occurrences w (normalized_words s)))
    as [Hocc|]; [|discriminate].
  injection Hin as <-. pose proof (occurrences_in _ _ Hocc) as Hw.
  unfold normalized_words in Hw. apply in_map_iff in Hw as (x & Hx & Hsp).
  pose proof (split_no_space s) as Hsplit. rewrite Forall_forall in Hsplit.
  unfold record_ok. simpl. split; [|split; [|split; [|split; [|split]]]].
  - rewrite <- Hx. apply normalize_again.
  - rewrite <- Hx. now apply normalize_no_space, Hsplit.
  - exact Hlen.
  - exact Hown.
  - reflexivity.
  - lia.
Qed.

Lemma _merge_word_entries key this wr :
  record_ok wr -> Forall entry_ok (collection this) ->
  Forall entry_ok (collection (_merge_word key this wr)).
Proof.
  destruct wr as [w r]. intros (Hn & Hs & Hl & Ho & Hw & Hc) Hall.
  rewrite _merge_word_collection. apply Forall_set_pair; [exact Hall|].
  unfold merged, entry_ok. simpl in *.
  destruct (JsObj.get w (collection this)) as [e|] eqn:Hget; simpl.
  - apply get_some_in in Hget. rewrite Forall_forall in Hall.
    destruct (Hall _ Hget) as (_ & _ & _ & _ & Hw' & Hc'). simpl in *.
    repeat split; try assumption. lia.
  - now repeat split.
Qed.

Lemma _remove_word_entries key this wr :
  Forall entry_ok (collection this) ->
  Forall entry_ok (collection (_remove_word key this wr)).
Proof.
  destruct wr as [w r]. intros Hall. rewrite _remove_word_collection.
  destruct (JsObj.get w (collection this)) as [e|] eqn:Hget; [|exact Hall].
  unfold removed.
  destruct (Z.eqb_spec (WordEntry.count e - 1) 0) as [|Hnz];
    [now apply Forall_delete|].
  apply Forall_set_pair; [exact Hall|].
  apply get_some_in in Hget. rewrite Forall_forall in Hall.
  destruct (Hall _ Hget) as (Hn & Hs & Hl & Ho & Hw & Hc). simpl in *.
  unfold entry_ok. simpl. repeat split; try assumption. lia.
Qed.

Lemma add_entries str key this :
  Forall entry_ok (collection this) ->
  Forall entry_ok (collection (add str key this)).
Proof.
  intros Hall. destruct (add_merges str key this) as (this' & -> & _ & Hc).
  unfold _merge.
  apply (fold_left_inv (fun e => Forall entry_ok (collection e))).
  - now rewrite Hc.
  - intros e wr Hin He. apply _merge_word_entries; [|exact He].
    pose proof (_index_records str) as Hrec.
    rewrite Forall_forall in Hrec. now apply Hrec.
Qed.

Lemma remove_entries str key this :
  Forall entry_ok (collection this) ->
  Forall entry_ok (collection (remove str key this)).
Proof.
  intros Hall. rewrite remove_collection.
  destruct (size this =? 0)%Z; [exact Hall|]. unfold _remove.
  apply (fold_left_inv (fun e => Forall entry_ok (collection e)));
    [exact Hall|].
  intros e wr _ He. now apply _remove_word_entries.
Qed.

Lemma run_entries c this :
  Forall entry_ok (collection this) ->
  Forall entry_ok (collection (run c this)).
Proof.
  intros Hall. destruct c as [str key|str key|str mode|]; simpl.
  - now apply add_entries.
  - now apply remove_entries.
  - rewrite match_state. now destruct (taints str).
  - constructor.
Qed.

(** In every engine that calls of add, remove, match and clear make of a new
    one without leaving the environment of the language, every word of the
    Collection is a normalized word without space and of two code units or
    more that names no inherited member, its weight is its length and its
    count is 1 or more. *)
Theorem reachable_entries this :
  reachable this -> env this = Standard ->
  Forall entry_ok (collection this).
Proof.
  induction 1 as [|c this _ IH]; [constructor|].
  intros Henv. apply run_entries, IH, (run_standard c), Henv.
Qed.

Lemma reachable_entries_witness :
  reachable the_instruction
  /\ env the_instruction = Standard
  /\ Forall entry_ok (collection the_instruction).
Proof.
  pose proof reachable_the_instruction as H.
  assert (He : env the_instruction = Standard) by (vm_compute; reflexivity).
  split; [exact H|]. split; [exact He|].
  exact (reachable_entries the_instruction H He).
Defined.

(** ** Finding what was added *)

Lemma prefix_same s : String.prefix s s = true.
Proof.
  induction s as [|c s IH]; [reflexivity|]. simpl.
  now destruct (ascii_dec c c).
Qed.

Lemma merged_has_key key k r old :
  given key = Some k -> In k (WordEntry.keys (merged key r old)).
Proof.
  intros Hkey. unfold merged. rewrite Hkey. destruct old as [e|]; simpl.
  - apply in_or_app. right. now left.
  - now left.
Qed.

(** A text added under a key is found by each of its words: after
    add(str, key) that leaves the environment of the language as it is and
    the Collection without a key that names an inherited member,
    match(W, "all") for a word W of the index of the text returns a list
    that holds the key. *)
Theorem add_then_match this str key k W :
  env (add str key this) = Standard ->
  plain_keys (add str key this) = true ->
  given key = Some k ->
  In W (JsObj.names (_index str)) ->
  exists result,
    fst (match_ (Some W) (Some "all") (add str key this)) = Normal result
    /\ In k result.
Proof.
  intros Henv Hplain Hkey HW. unfold JsObj.names in HW.
  apply in_map_iff in HW as ([W' r] & HW' & Hin). simpl in HW'. subst W'.
  pose proof (_index_records str) as Hrec. rewrite Forall_forall in Hrec.
  destruct (Hrec _ Hin) as (Hnorm & Hsp & Hlen & Hown & _). simpl in *.
  apply in_get_nodup in Hin; [|apply _index_wf].
  apply (match_all_prefix _ W
           (merged key r (JsObj.get W (collection this))) W k);
    try assumption.
  - now rewrite add_get, Hin.
  - apply prefix_same.
  - now apply merged_has_key.
Qed.

Lemma add_then_match_witness :
  exists result,
    fst (match_ (Some "instant") (Some "all")
           (add (Some "Instant search in Google is awesome!") (Some "quote")
              empty))
    = Normal result
    /\ In "quote" result.
Proof.
  apply (add_then_match empty _ (Some "quote") "quote" "instant").
  - vm_compute. reflexivity.
  - vm_compute. reflexivity.
  - reflexivity.
  - vm_compute. now left.
Defined.

(** ** What match returns *)

Section Expansion.
Variables (this : Jsse) (index_tmp : JsObj.t IndexRecord.t).
Let tokens : list string := JsObj.names index_tmp.

Lemma in_tokens l w r : incl l index_tmp -> In (w, r) l -> In w tokens.
Proof.
  intros Hincl Hin. unfold tokens, JsObj.names.
  change w with (fst (w, r)). now apply in_map, Hincl.
Qed.

Lemma from_token_seeds :
  forall l index, incl l index_tmp ->
  Forall (from_token tokens) index ->
  Forall (from_token tokens) (fold_left _indexAgainst_seed l index).
Proof.
  induction l as [|[w r] l IH]; intros index Hincl Hall; [exact Hall|].
  cbn [fold_left]. apply IH; [intros x Hx; apply Hincl; now right|].
  unfold _indexAgainst_seed. apply Forall_set_pair; [exact Hall|].
  split; simpl; [|apply prefix_same].
  apply (in_tokens ((w, r) :: l) w r Hincl). now left.
Qed.

Lemma from_token_partials word :
  forall l index, incl l index_tmp ->
  Forall (from_token tokens) index ->
  Forall (from_token tokens)
    (fold_left (_indexAgainst_partial word) l index).
Proof.
  induction l as [|[p r] l IH]; intros index Hincl Hall; [exact Hall|].
  cbn [fold_left]. apply IH; [intros x Hx; apply Hincl; now right|].
  unfold _indexAgainst_partial.
  destruct (Z.eqb_spec (Str.indexOf word p 0) 0) as [Hzero|_]; [|exact Hall].
  apply Forall_set_pair; [exact Hall|]. split; simpl.
  - apply (in_tokens ((p, r) :: l) p r Hincl). now left.
  - now apply indexOf_zero_prefix.
Qed.

Lemma from_token_words :
  forall coll index,
  Forall (from_token tokens) index ->
  Forall (from_token tokens)
    (fold_left (_indexAgainst_word index_tmp) coll index).
Proof.
  induction coll as [|we coll IH]; intros index Hall; [exact Hall|].
  cbn [fold_left]. apply IH. unfold _indexAgainst_word.
  now apply from_token_partials; [apply incl_refl|].
Qed.

End Expansion.

(** Every record of the expansion of a query is tagged with a token of the
    query that its word starts with. *)
Lemma _indexAgainst_from str this :
  Forall (from_token (JsObj.names (_index str))) (_indexAgainst str this).
Proof.
  unfold _indexAgainst. apply from_token_words, from_token_seeds;
    [apply incl_refl|constructor].
Qed.

(** A key found comes from a word of the expansion that the Collection
    holds. *)
Lemma match_keys_from index this key :
  In key (JsObj.names (match_keys_own index this)) ->
  exists W p e,
    In (W, p) index
    /\ JsObj.get W (collection this) = Some e
    /\ In key (WordEntry.keys e).
Proof.
  unfold match_keys_own.
  apply (fold_left_inv
           (fun keys =>
              In key (JsObj.names keys) ->
              exists W p e,
                In (W, p) index
                /\ JsObj.get W (collection this) = Some e
                /\ In key (WordEntry.keys e))).
  - intros [].
  - intros keys [W p] HW IH Hin. unfold match_word_own in Hin. simpl in Hin.
    destruct (JsObj.get W (collection this)) as [found|] eqn:Hget;
      [|now apply IH].
    apply match_key_loop_names_from in Hin as [Hin|Hin]; [|now apply IH].
    now exists W, p, found.
Qed.

Lemma match_nb_keywords_props str this ks :
  forall nb_keywords nb_keywords',
  match_nb_keywords str this ks nb_keywords = Normal nb_keywords' ->
  forall k,
  In k (JsObj.names (JsArray.props nb_keywords')) ->
  In k ks \/ In k (JsObj.names (JsArray.props nb_keywords)).
Proof.
  induction ks as [|key ks IH]; intros a a' Hrun k Hk.
  - injection Hrun as <-. now right.
  - cbn [match_nb_keywords] in Hrun.
    destruct (JsArray.set key (_nb_keywords_found key str this) a)
      as [a1| | |] eqn:Hset; try discriminate.
    destruct (IH _ _ Hrun k Hk) as [Hin|Hin]; [left; now right|].
    unfold JsArray.set in Hset.
    destruct (String.eqb key "length").
    + destruct (_ <? _)%N; [|discriminate]. injection Hset as <-.
      simpl in Hin. unfold JsObj.names in *.
      apply in_map_iff in Hin as (kv & <- & Hkv).
      apply filter_In in Hkv. right. now apply in_map.
    + assert (Hprops : JsArray.props a1
                       = JsObj.set key (_nb_keywords_found key str this)
                           (JsArray.props a)).
      { destruct (JsObj.array_index key); now injection Hset as <-. }
      rewrite Hprops in Hin. apply in_names_set in Hin as [->|Hin];
        [left; now left|now right].
Qed.

(** Whatever the mode, the keys that match returns are among the keys
    found. *)
Lemma match_result_found str mode this result key :
  fst (match_ str mode this) = Normal result -> In key result ->
  In key (JsObj.names (match_keys_own (_indexAgainst str this) this)).
Proof.
  unfold match_.
  destruct (taints str); [discriminate|].
  destruct (env this); [|discriminate].
  destruct (match_keys (_indexAgainst str this) this) as [keys| | |] eqn:Hkeys;
    try discriminate.
  apply match_keys_normal in Hkeys. subst keys.
  destruct (String.eqb match given mode with Some m => m | None => "all" end
              "all"); cbn [fst].
  - intros [= <-]. apply match_all_names.
  - unfold match_any.
    destruct (match_nb_keywords _ this _ JsArray.empty) as [a| | |] eqn:Hrun;
      try discriminate.
    intros [= <-] Hin. apply in_map_iff in Hin as (kv & <- & Hkv).
    apply in_sort_assoc_array in Hkv.
    destruct (match_nb_keywords_props _ _ _ _ _ Hrun (fst kv)) as [H|[]];
      [|exact H]. unfold JsObj.names. now apply in_map.
Qed.

(** Every key that match returns, in either mode, is a key of a word of the
    Collection that starts with a token of the query. *)
Theorem match_sound this str mode result key :
  fst (match_ str mode this) = Normal result ->
  In key result ->
  exists W e p,
    JsObj.get W (collection this) = Some e
    /\ In key (WordEntry.keys e)
    /\ In p (JsObj.names (_index str))
    /\ String.prefix p W = true.
Proof.
  intros Hrun Hin.
  apply (match_result_found _ _ _ _ _ Hrun) in Hin.
  apply match_keys_from in Hin as (W & p & e & Hp & Hget & Hkey).
  pose proof (_indexAgainst_from str this) as Hfrom.
  rewrite Forall_forall in Hfrom. destruct (Hfrom _ Hp) as [Htok Hpre].
  now exists W, e, (Partial.orig p).
Qed.

Lemma match_sound_witness :
  exists W e p,
    JsObj.get W (collection the_instruction) = Some e
    /\ In "quote" (WordEntry.keys e)
    /\ In p (JsObj.names (_index (Some "inst")))
    /\ String.prefix p W = true.
Proof.
  apply (match_sound the_instruction (Some "inst") None
           ["quote"; "instruction"] "quote").
  - vm_compute. reflexivity.
  - now left.
Defined.

Lemma names_nil {V : Type} (o : JsObj.t V) :
  (forall k, ~ In k (JsObj.names o)) -> o = [].
Proof.
  destruct o as [|[k v] o]; [reflexivity|]. intros H.
  exfalso. apply (H k). now left.
Qed.

Lemma no_match_keys str this :
  no_match str this = true ->
  match_keys_own (_indexAgainst str this) this = [].
Proof.
  intros Hno. apply names_nil. intros key Hin.
  apply match_keys_from in Hin as (W & p & e & Hp & Hget & _).
  pose proof (_indexAgainst_from str this) as Hfrom.
  rewrite Forall_forall in Hfrom. destruct (Hfrom _ Hp) as [Htok Hpre].
  simpl in Hpre. unfold JsObj.names in Htok.
  apply in_map_iff in Htok as (pr & Hpr & Hin).
  unfold no_match in Hno. rewrite forallb_forall in Hno.
  specialize (Hno _ (get_some_in _ _ _ Hget)). rewrite forallb_forall in Hno.
  specialize (Hno _ Hin). cbn [fst snd] in Hno, Hpr.
  rewrite Hpr, Hpre in Hno. discriminate.
Qed.

Lemma no_match_absent str this wr :
  no_match str this = true -> In wr (_indexAgainst str this) ->
  JsObj.get (fst wr) (collection this) = None.
Proof.
  intros Hno Hp.
  destruct (JsObj.get (fst wr) (collection this)) as [e|] eqn:Hget;
    [|reflexivity].
  exfalso. pose proof (_indexAgainst_from str this) as Hfrom.
  rewrite Forall_forall in Hfrom. destruct (Hfrom _ Hp) as [Htok Hpre].
  unfold JsObj.names in Htok. apply in_map_iff in Htok as (pr & Hpr & Hin).
  unfold no_match in Hno. rewrite forallb_forall in Hno.
  specialize (Hno _ (get_some_in _ _ _ Hget)). rewrite forallb_forall in Hno.
  specialize (Hno _ Hin). cbn [fst snd] in Hno, Hpr.
  rewrite Hpr, Hpre in Hno. discriminate.
Qed.

(** With nothing to match, the loop over the keys has no turn. *)
Lemma no_match_quiet str this :
  no_match str this = true ->
  match_keys (_indexAgainst str this) this = Normal [].
Proof.
  intros Hno. rewrite match_keys_safe; [now rewrite (no_match_keys _ _ Hno)|].
  intros wr e key Hin Hget.
  rewrite (no_match_absent _ _ _ Hno Hin) in Hget. discriminate.
Qed.

(** In the environment of the language and for a query without the word
    [__proto__], when no word of the Collection starts with a token of the
    query (the Collection is empty, the query has no word to index, or
    nothing matches), match returns the empty list in either mode. *)
Theorem match_nothing this str mode :
  env this = Standard -> taints str = false ->
  no_match str this = true -> fst (match_ str mode this) = Normal [].
Proof.
  intros Henv Htaint Hno. unfold match_.
  rewrite Htaint, Henv, (no_match_quiet _ _ Hno).
  now destruct (String.eqb
                  match given mode with Some m => m | None => "all" end
                  "all").
Qed.

Lemma match_nothing_witness :
  fst (match_ (Some "zebra") (Some "any") the_instruction) = Normal []
  /\ fst (match_ (Some "inst") None empty) = Normal []
  /\ fst (match_ (Some "the a") None the_instruction) = Normal [].
Proof.
  split; [|split].
  - apply (match_nothing the_instruction (Some "zebra") (Some "any"));
      vm_compute; reflexivity.
  - apply (match_nothing empty (Some "inst") None); vm_compute; reflexivity.
  - apply (match_nothing the_instruction (Some "the a") None);
      vm_compute; reflexivity.
Defined.

(** ** The order of the answers *)

Lemma sort_insert_perm x l : Permutation (sort_insert x l) (x :: l).
Proof.
  induction l as [|y l IH]; simpl; [reflexivity|].
  destruct (snd y <=? snd x)%N; [reflexivity|].
  rewrite IH. apply perm_swap.
Qed.

Lemma sort_insert_sorted x l :
  StronglySorted falling l -> StronglySorted falling (sort_insert x l).
Proof.
  induction l as [|y l IH]; intros Hl; simpl.
  - constructor; constructor.
  - apply StronglySorted_inv in Hl as [Hl Hy].
    destruct (N.leb_spec (snd y) (snd x)) as [Hle|Hgt].
    + constructor; [constructor; assumption|].
      constructor; [exact Hle|].
      rewrite Forall_forall in *. intros z Hz. specialize (Hy z Hz).
      unfold falling in *. lia.
    + constructor; [now apply IH|].
      rewrite Forall_forall in *. intros z Hz.
      apply (Permutation_in _ (sort_insert_perm x l)) in Hz.
      destruct Hz as [<-|Hz]; [unfold falling; lia|now apply Hy].
Qed.

Lemma sort_insert_stable v x l :
  List.filter (fun kv : string * N => (snd kv =? v)%N) (sort_insert x l)
  = List.filter (fun kv : string * N => (snd kv =? v)%N) (x :: l).
Proof.
  induction l as [|y l IH]; [reflexivity|]. cbn [sort_insert].
  destruct (N.leb_spec (snd y) (snd x)) as [Hle|Hgt]; [reflexivity|].
  cbn [List.filter] in *. rewrite IH.
  destruct (N.eqb_spec (snd x) v) as [Hx|_]; [|reflexivity].
  destruct (N.eqb_spec (snd y) v) as [Hy|_]; [lia|reflexivity].
Qed.

Lemma sort_perm nb_keywords :
  Permutation (_sort_assoc_array nb_keywords) (JsArray.props nb_keywords).
Proof.
  unfold _sort_assoc_array.
  induction (JsArray.props nb_keywords) as [|x l IH]; simpl; [reflexivity|].
  rewrite sort_insert_perm. now constructor.
Qed.

Lemma sort_sorted nb_keywords :
  StronglySorted falling (_sort_assoc_array nb_keywords).
Proof.
  unfold _sort_assoc_array.
  induction (JsArray.props nb_keywords) as [|x l IH]; simpl; [constructor|].
  now apply sort_insert_sorted.
Qed.

(** What _sort_assoc_array returns has the entries of the array, each as
    often as the array, by falling value; entries of one value are in the
    order the array had them in. *)
Theorem _sort_assoc_array_sorts nb_keywords :
  Permutation (_sort_assoc_array nb_keywords) (JsArray.props nb_keywords)
  /\ StronglySorted falling (_sort_assoc_array nb_keywords)
  /\ forall v,
       List.filter (fun kv : string * N => (snd kv =? v)%N)
         (_sort_assoc_array nb_keywords)
       = List.filter (fun kv : string * N => (snd kv =? v)%N)
           (JsArray.props nb_keywords).
Proof.
  split; [apply sort_perm|]. split; [apply sort_sorted|].
  intros v. unfold _sort_assoc_array.
  induction (JsArray.props nb_keywords) as [|x l IH]; [reflexivity|].
  cbn [fold_right]. rewrite sort_insert_stable. cbn [List.filter].
  now rewrite IH.
Qed.

(** The array of scores holds, under each key, the score of the key. *)
Lemma match_nb_keywords_scored str this ks :
  forall nb_keywords nb_keywords',
  match_nb_keywords (scored_text str) this ks nb_keywords
  = Normal nb_keywords' ->
  Forall (scored str this) (JsArray.props nb_keywords) ->
  Forall (scored str this) (JsArray.props nb_keywords').
Proof.
  induction ks as [|key ks IH]; intros a a' Hrun Hall.
  - now injection Hrun as <-.
  - cbn [match_nb_keywords] in Hrun.
    destruct (JsArray.set key (_nb_keywords_found key (scored_text str) this)
                a) as [a1| | |] eqn:Hset; try discriminate.
    apply (IH _ _ Hrun). unfold JsArray.set in Hset.
    destruct (String.eqb key "length").
    + destruct (_ <? _)%N; [|discriminate]. injection Hset as <-. simpl.
      rewrite Forall_forall in *. intros kv Hkv.
      apply filter_In in Hkv. now apply Hall.
    + assert (Hprops : JsArray.props a1
                       = JsObj.set key
                           (_nb_keywords_found key (scored_text str) this)
                           (JsArray.props a)).
      { destruct (JsObj.array_index key); now injection Hset as <-. }
      rewrite Hprops. now apply Forall_set_pair.
Qed.

Lemma sorted_by_score str this l :
  Forall (scored str this) l -> StronglySorted falling l ->
  StronglySorted (falling_score str this) (map fst l).
Proof.
  induction l as [|x l IH]; intros Hall Hsorted; simpl; [constructor|].
  apply StronglySorted_inv in Hsorted as [Hl Hx].
  inversion Hall as [|? ? Hsx Hsl]; subst.
  constructor; [now apply IH|].
  rewrite Forall_forall in *. intros k Hk.
  apply in_map_iff in Hk as (y & <- & Hy).
  unfold falling_score. specialize (Hx y Hy). specialize (Hsl y Hy).
  unfold falling, scored in *. now rewrite <- Hsx, <- Hsl.
Qed.

(** In a mode other than all, match returns the keys by falling score: no
    key comes before a key with a higher score for the query. *)
Theorem match_any_by_score this str mode result :
  any_mode mode = true ->
  fst (match_ str mode this) = Normal result ->
  StronglySorted (falling_score str this) result.
Proof.
  unfold any_mode, match_. intros Hmode.
  apply negb_true_iff in Hmode. rewrite Hmode.
  destruct (taints str); [discriminate|].
  destruct (env this); [|discriminate].
  destruct (match_keys _ this) as [keys| | |]; try discriminate. cbn [fst].
  fold (scored_text str). unfold match_any.
  destruct (match_nb_keywords _ this _ JsArray.empty) as [a| | |] eqn:Hrun;
    try discriminate.
  intros [= <-]. apply sorted_by_score; [|apply sort_sorted].
  assert (Hall : Forall (scored str this) (JsArray.props a)).
  { apply (match_nb_keywords_scored _ _ _ _ _ Hrun). constructor. }
  rewrite Forall_forall in *. intros kv Hkv. apply Hall.
  now apply in_sort_assoc_array.
Qed.

Lemma match_any_by_score_witness :
  StronglySorted (falling_score (Some "inst") the_instruction)
    ["instruction"; "quote"].
Proof.
  apply (match_any_by_score the_instruction (Some "inst") (Some "any")).
  - reflexivity.
  - vm_compute. reflexivity.
Defined.

Lemma nodup_map_filter {V : Type} (f : string * V -> bool) (o : JsObj.t V) :
  NoDup (JsObj.names o) -> NoDup (JsObj.names (List.filter f o)).
Proof.
  unfold JsObj.names. induction o as [|kv o IH]; simpl; [easy|].
  intros Hnd. apply NoDup_cons_iff in Hnd as [Hout Hnd].
  destruct (f kv); simpl; [|now apply IH].
  constructor; [|now apply IH]. intros Hin. apply Hout.
  apply in_map_iff in Hin as (x & Hx & Hin). apply filter_In in Hin.
  apply in_map_iff. now exists x.
Qed.

Lemma match_keys_nodup index this :
  NoDup (JsObj.names (match_keys_own index this)).
Proof.
  unfold match_keys_own.
  apply (fold_left_inv (fun keys => NoDup (JsObj.names keys)));
    [constructor|].
  intros keys wr _ Hnd. unfold match_word_own.
  destruct (JsObj.get (fst wr) (collection this)) as [found|]; [|exact Hnd].
  apply (fold_left_inv (fun keys => NoDup (JsObj.names keys))); [exact Hnd|].
  intros keys' key _ Hnd'. unfold match_key_own.
  destruct (JsObj.get key keys') as [origs|]; [|now apply nodup_set].
  destruct (indexOf origs (Partial.orig (snd wr)) =? -1)%Z;
    [now apply nodup_set|exact Hnd'].
Qed.

Lemma match_nb_keywords_nodup str this ks :
  forall nb_keywords nb_keywords',
  match_nb_keywords str this ks nb_keywords = Normal nb_keywords' ->
  NoDup (JsObj.names (JsArray.props nb_keywords)) ->
  NoDup (JsObj.names (JsArray.props nb_keywords')).
Proof.
  induction ks as [|key ks IH]; intros a a' Hrun Hnd.
  - now injection Hrun as <-.
  - cbn [match_nb_keywords] in Hrun.
    destruct (JsArray.set key (_nb_keywords_found key str this) a)
      as [a1| | |] eqn:Hset; try discriminate.
    apply (IH _ _ Hrun). unfold JsArray.set in Hset.
    destruct (String.eqb key "length").
    + destruct (_ <? _)%N; [|discriminate]. injection Hset as <-. simpl.
      now apply nodup_map_filter.
    + assert (Hprops : JsArray.props a1
                       = JsObj.set key (_nb_keywords_found key str this)
                           (JsArray.props a)).
      { destruct (JsObj.array_index key); now injection Hset as <-. }
      rewrite Hprops. now apply nodup_set.
Qed.

(** Whatever the mode, match returns no key twice. *)
Theorem match_no_repeat this str mode result :
  fst (match_ str mode this) = Normal result -> NoDup result.
Proof.
  unfold match_.
  destruct (taints str); [discriminate|].
  destruct (env this); [|discriminate].
  destruct (match_keys (_indexAgainst str this) this) as [keys| | |] eqn:Hkeys;
    try discriminate.
  apply match_keys_normal in Hkeys. subst keys.
  destruct (String.eqb match given mode with Some m => m | None => "all" end
              "all"); cbn [fst].
  - intros [= <-]. unfold match_all.
    apply (nodup_map_filter _ _ (match_keys_nodup _ this)).
  - unfold match_any.
    destruct (match_nb_keywords _ this _ JsArray.empty) as [a| | |] eqn:Hrun;
      try discriminate.
    intros [= <-].
    apply (Permutation_NoDup
             (Permutation_map fst (Permutation_sym (sort_perm a)))).
    apply (match_nb_keywords_nodup _ _ _ _ _ Hrun). constructor.
Qed.

Lemma match_no_repeat_witness : NoDup ["quote"; "instruction"].
Proof.
  apply (match_no_repeat the_instruction (Some "inst") None).
  vm_compute. reflexivity.
Defined.

(** ** The count of occurrences *)

Lemma search_least w : forall s pos, (-1 <= Str.search w s pos)%Z.
Proof.
  induction s as [|c s IH]; intros pos; cbn [Str.search];
    destruct (String.prefix w _); try lia. apply IH.
Qed.

Lemma count_from_adds string word :
  word <> "" ->
  forall fuel start nb_found,
  (start <= String.length string)%nat ->
  exists k,
    count_from fuel string word start nb_found = (nb_found + N.of_nat k)%N
    /\ (k * String.length word + start <= String.length string)%nat.
Proof.
  intros Hword.
  induction fuel as [|fuel IH]; intros start nb Hstart; cbn [count_from].
  - exists 0%nat. split; lia.
  - destruct (Str.indexOf string word start >? -1)%Z eqn:Hfound.
    + apply Z.gtb_lt in Hfound.
      destruct (indexOf_bounds string word start Hstart Hfound) as [Hlo Hhi].
      destruct (IH (Z.to_nat (Str.indexOf string word start)
                    + String.length word)%nat (nb + 1)%N) as (k & Hk & Hfit);
        [lia|].
      exists (S k). split; [rewrite Hk; lia|]. simpl. lia.
    + exists 0%nat. split; lia.
Qed.

(** The loop that counts a word in a text ends within as many turns as the
    text has code units, and one more: with more turns allowed the count is
    the same. *)
Theorem count_from_ends string word nb_found fuel :
  word <> "" -> (S (String.length string) <= fuel)%nat ->
  count_from fuel string word 0 nb_found
  = count_from (S (String.length string)) string word 0 nb_found.
Proof.
  intros Hword Hfuel. symmetry. apply count_from_fuel; [exact Hword|lia|lia].
Qed.

Lemma count_from_ends_witness :
  count_from 100 "aaa aa a" "aa" 0 0 = count_from 9 "aaa aa a" "aa" 0 0.
Proof.
  apply (count_from_ends "aaa aa a" "aa" 0%N 100).
  - discriminate.
  - simpl. lia.
Defined.

(** The occurrences of a word that the loop counts do not overlap: the count
    times the length of the word is at most the length of the text; and the
    count is 0 exactly when the word is not in the text. *)
Theorem count_from_fits string word :
  word <> "" ->
  exists k,
    count_from (S (String.length string)) string word 0 0 = N.of_nat k
    /\ (k * String.length word <= String.length string)%nat
    /\ (k = 0%nat <-> Str.indexOf string word 0 = (-1)%Z).
Proof.
  intros Hword. cbn [count_from].
  destruct (Str.indexOf string word 0 >? -1)%Z eqn:Hfound.
  - apply Z.gtb_lt in Hfound.
    destruct (indexOf_bounds string word 0 (Nat.le_0_l _) Hfound)
      as [Hlo Hhi].
    destruct (count_from_adds string word Hword (String.length string)
                (Z.to_nat (Str.indexOf string word 0) + String.length word)
                (0 + 1)%N) as (k & Hk & Hfit); [lia|].
    exists (S k). split; [rewrite Hk; lia|]. split; [simpl; lia|].
    split; [discriminate|lia].
  - exists 0%nat. split; [reflexivity|]. split; [lia|]. split; [|easy].
    intros _. unfold Str.indexOf in *. cbn [Nat.min Str.drop] in *.
    pose proof (search_least word string 0). lia.
Qed.

Lemma count_from_fits_witness :
  exists k,
    count_from 9 "aaa aa a" "aa" 0 0 = N.of_nat k
    /\ (k * 2 <= 8)%nat
    /\ (k = 0%nat <-> Str.indexOf "aaa aa a" "aa" 0 = (-1)%Z).
Proof. apply (count_from_fits "aaa aa a" "aa"). discriminate. Defined.

(** ** Removing what was not added, and clearing *)

Lemma _remove_unknown key index :
  forall this,
  forallb
    (fun wr : string * IndexRecord.t =>
       negb (JsObj.has (fst wr) (collection this)))
    index = true ->
  _remove index key this = this.
Proof.
  unfold _remove. induction index as [|[w r] index IH]; intros this Hall;
    [reflexivity|].
  cbn [forallb fst] in Hall. apply andb_true_iff in Hall as [Hw Hall].
  cbn [fold_left]. unfold JsObj.has in Hw.
  assert (Hstep : _remove_word key this (w, r) = this).
  { unfold _remove_word. now destruct (JsObj.get w (collection this)). }
  rewrite Hstep. now apply IH.
Qed.

Lemma remove_size this str key :
  size (remove str key this)
  = if (size this =? 0)%Z then size this
    else size (_remove (_index str) key this).
Proof.
  unfold remove. destruct (size this =? 0)%Z; [reflexivity|]. cbv zeta.
  assert (H : size
                (_remove (_index str) key
                   (if taints str then tainted this else this))
              = size (_remove (_index str) key this)).
  { apply _remove_frame; now destruct (taints str). }
  now destruct (given key).
Qed.

(** Removing a text none of whose words the Collection holds, and which
    leaves the environment of the language as it is, leaves the Collection
    and the size as they are, whatever the key. *)
Theorem remove_unknown this str key :
  env (remove str key this) = Standard ->
  unknown_words str this = true ->
  collection (remove str key this) = collection this
  /\ size (remove str key this) = size this.
Proof.
  intros _ Hall. rewrite remove_collection, remove_size.
  destruct (size this =? 0)%Z; [now split|].
  now rewrite (_remove_unknown _ _ _ Hall).
Qed.

Lemma remove_unknown_witness :
  collection (remove (Some "red car") (Some "quote") the_instruction)
  = collection the_instruction
  /\ size (remove (Some "red car") (Some "quote") the_instruction)
     = size the_instruction.
Proof.
  apply (remove_unknown the_instruction (Some "red car") (Some "quote"));
    vm_compute; reflexivity.
Defined.

(** After clear() in the environment of the language the engine has no word
    and size 0, every match whose query is without the word [__proto__]
    returns the empty list, the KeyStore is as it was, and remove changes
    nothing: it no longer deletes the entry of a key. *)
Theorem clear_then this str key mode :
  env this = Standard -> taints str = false ->
  getWords (clear this) = []
  /\ size (clear this) = 0%Z
  /\ keys (clear this) = keys this
  /\ fst (match_ str mode (clear this)) = Normal []
  /\ remove str key (clear this) = clear this.
Proof.
  intros Henv Htaint. repeat split. unfold match_. rewrite Htaint.
  cbn [env clear]. rewrite Henv.
  rewrite (no_match_quiet str (clear this) eq_refl).
  now destruct (String.eqb
                  match given mode with Some m => m | None => "all" end
                  "all").
Qed.

Lemma clear_then_witness :
  getWords (clear the_instruction) = []
  /\ size (clear the_instruction) = 0%Z
  /\ keys (clear the_instruction) = keys the_instruction
  /\ fst (match_ (Some "inst") (Some "any") (clear the_instruction))
     = Normal []
  /\ remove (Some "install") (Some "instruction") (clear the_instruction)
     = clear the_instruction.
Proof.
  apply (clear_then the_instruction (Some "inst") (Some "instruction")
           (Some "any")); vm_compute; reflexivity.
Defined.

(** ** Upper and lower case *)

Lemma lower_char_again c :
  Str.lower_char (Str.lower_char c) = Str.lower_char c.
Proof. each_ascii c; vm_compute; reflexivity. Qed.

Lemma toLowerCase_again s :
  Str.toLowerCase (Str.toLowerCase s) = Str.toLowerCase s.
Proof.
  induction s as [|c s IH]; [reflexivity|]. cbn [Str.toLowerCase].
  now rewrite lower_char_again, IH.
Qed.

Lemma normalize_lower x : normalize (Str.toLowerCase x) = normalize x.
Proof. unfold normalize. now rewrite toLowerCase_again. Qed.

Lemma split_lower s :
  Str.split " " (Str.toLowerCase s) = map Str.toLowerCase (Str.split " " s).
Proof.
  induction s as [|c s IH]; [reflexivity|].
  cbn [Str.toLowerCase Str.split].
  rewrite (Ascii.eqb_sym (Str.lower_char c)), lower_char_space.
  rewrite (Ascii.eqb_sym " " c), IH.
  destruct (Ascii.eqb c " "); [reflexivity|].
  now destruct (Str.split " " s).
Qed.

Lemma _index_loop_lower l :
  forall index,
  fold_left _index_word (map Str.toLowerCase l) index
  = fold_left _index_word l index.
Proof.
  induction l as [|x l IH]; intros index; [reflexivity|].
  cbn [map fold_left]. rewrite IH. f_equal.
  unfold _index_word. now rewrite normalize_lower.
Qed.

Lemma _index_lower s : _index (Some (Str.toLowerCase s)) = _index (Some s).
Proof.
  unfold _index. destruct s as [|c s]; [reflexivity|].
  cbn [Str.toLowerCase String.eqb].
  change (String (Str.lower_char c) (Str.toLowerCase s))
    with (Str.toLowerCase (String c s)).
  now rewrite split_lower, _index_loop_lower.
Qed.

Lemma taints_lower s : taints (Some (Str.toLowerCase s)) = taints (Some s).
Proof.
  unfold taints. rewrite split_lower, map_map. f_equal.
  apply map_ext. intros x. apply normalize_lower.
Qed.

(** Upper and lower case make no difference to what is indexed, nor to what
    match finds in mode all: a text and the text in lower case have the same
    index, and add puts the same words into the Collection for both; a query
    and the query in lower case have the same answer. *)
Theorem lower_case_same this s key :
  _index (Some (Str.toLowerCase s)) = _index (Some s)
  /\ collection (add (Some (Str.toLowerCase s)) key this)
     = collection (add (Some s) key this)
  /\ fst (match_ (Some (Str.toLowerCase s)) (Some "all") this)
     = fst (match_ (Some s) (Some "all") this).
Proof.
  split; [apply _index_lower|]. split.
  - destruct (add_merges (Some (Str.toLowerCase s)) key this)
      as (a0 & -> & _ & Ha).
    destruct (add_merges (Some s) key this) as (b0 & -> & _ & Hb).
    rewrite _index_lower. unfold _merge.
    generalize (_index (Some s)). intros index.
    assert (Hstep : forall l (a b : Jsse),
              collection a = collection b ->
              collection (fold_left (_merge_word key) l a)
              = collection (fold_left (_merge_word key) l b)).
    { induction l as [|wr l IH]; intros a b Hab; [exact Hab|].
      cbn [fold_left]. apply IH.
      destruct wr as [w r]. now rewrite !_merge_word_collection, Hab. }
    apply Hstep. congruence.
  - unfold match_, _indexAgainst. now rewrite taints_lower, _index_lower.
Qed.

(** ** Every matching key is returned in mode any *)

Lemma _indexAgainst_partial_names word l :
  forall index w,
  In w (JsObj.names index) ->
  In w (JsObj.names (fold_left (_indexAgainst_partial word) l index)).
Proof.
  induction l as [|[p r] l IH]; intros index w Hin; [exact Hin|].
  cbn [fold_left]. apply IH. unfold _indexAgainst_partial.
  destruct (Str.indexOf word p 0 =? 0)%Z; [|exact Hin].
  apply in_names_set. now right.
Qed.

Lemma _indexAgainst_partial_enters W p r l :
  forall index,
  In (p, r) l -> String.prefix p W = true ->
  In W (JsObj.names (fold_left (_indexAgainst_partial W) l index)).
Proof.
  induction l as [|[p' r'] l IH]; intros index Hin Hpre; [destruct Hin|].
  cbn [fold_left]. destruct Hin as [[= -> ->]|Hin].
  - apply _indexAgainst_partial_names. unfold _indexAgainst_partial.
    rewrite (indexOf_prefix _ _ Hpre). simpl. apply in_names_set. now left.
  - now apply IH.
Qed.

Lemma _indexAgainst_enters index_tmp W e p r coll :
  forall index,
  In (W, e) coll -> In (p, r) index_tmp -> String.prefix p W = true ->
  In W (JsObj.names (fold_left (_indexAgainst_word index_tmp) coll index)).
Proof.
  induction coll as [|we coll IH]; intros index Hin Hp Hpre; [destruct Hin|].
  cbn [fold_left]. destruct Hin as [->|Hin]; [|now apply IH].
  apply (fold_left_inv (fun index => In W (JsObj.names index))).
  - unfold _indexAgainst_word. simpl.
    now apply (_indexAgainst_partial_enters W p r).
  - intros a x _ Ha. unfold _indexAgainst_word.
    now apply _indexAgainst_partial_names.
Qed.

(** In the environment of the language, for a query without the word
    [__proto__] and when no key of the Collection names an inherited member:
    unless a word of the Collection has the key "length", match in a mode
    other than all returns every key of every word of the Collection that
    starts with a token of the query. *)
Theorem match_any_complete this str mode W e p key :
  env this = Standard ->
  taints str = false ->
  plain_keys this = true ->
  any_mode mode = true ->
  uses_key "length" this = false ->
  JsObj.get W (collection this) = Some e ->
  In key (WordEntry.keys e) ->
  In p (JsObj.names (_index str)) ->
  String.prefix p W = true ->
  exists result,
    fst (match_ str mode this) = Normal result /\ In key result.
Proof.
  intros Henv Htaint Hplain Hmode Hlen Hget Hkey Hp Hpre.
  unfold JsObj.names in Hp. apply in_map_iff in Hp as ([p' r] & Hp' & Hp).
  simpl in Hp'. subst p'.
  assert (HW : In W (JsObj.names (_indexAgainst str this))).
  { unfold _indexAgainst.
    apply (_indexAgainst_enters _ W e p r);
      [now apply get_some_in|exact Hp|exact Hpre]. }
  unfold JsObj.names in HW. apply in_map_iff in HW as ([W' rec] & HW' & HW).
  simpl in HW'. subst W'.
  assert (Hfound :
            In key (JsObj.names (match_keys_own (_indexAgainst str this) this))).
  { unfold match_keys_own. now apply (match_keys_enters this _ [] W rec e). }
  assert (Hno : ~ In "length"
                  (JsObj.names (match_keys_own (_indexAgainst str this) this))).
  { intros Hin. apply match_keys_names_from in Hin. congruence. }
  unfold any_mode in Hmode. apply negb_true_iff in Hmode.
  unfold match_.
  rewrite Htaint, Henv, (match_keys_plain _ _ Hplain), Hmode.
  cbn [fst]. unfold match_any.
  destruct (match_nb_keywords_stores
              match str with Some s => s | None => "" end
              this _ JsArray.empty Hno) as (nb_keywords & Hrun & Hnames).
  rewrite Hrun. eexists. split; [reflexivity|].
  specialize (Hnames key (or_introl Hfound)).
  unfold JsObj.names in Hnames. apply in_map_iff in Hnames as (kv & <- & Hin).
  apply in_map. now apply in_sort_assoc_array.
Qed.

Lemma match_any_complete_witness :
  exists result,
    fst (match_ (Some "zebra wo") (Some "any") the_instruction)
    = Normal result
    /\ In "instruction" result.
Proof.
  apply (match_any_complete the_instruction (Some "zebra wo") (Some "any")
           "work" (WordEntry.mk 4 1 ["instruction"]) "wo" "instruction").
  - vm_compute. reflexivity.
  - vm_compute. reflexivity.
  - vm_compute. reflexivity.
  - reflexivity.
  - vm_compute. reflexivity.
  - vm_compute. reflexivity.
  - now left.
  - vm_compute. right. now left.
  - reflexivity.
Defined.

(** ** A key that names an inherited member *)

Lemma match_key_own_names orig keys key :
  JsObj.inherited key = false -> own_names keys ->
  own_names (match_key_own orig keys key).
Proof.
  unfold own_names. rewrite !Forall_forall. intros Hkey Hall k Hin.
  apply match_key_names_from in Hin as [->|Hin]; [exact Hkey|now apply Hall].
Qed.

Lemma match_key_throws orig keys key :
  JsObj.inherited key = true -> own_names keys ->
  match_key orig keys key = TypeError.
Proof.
  intros Hkey Hall. unfold match_key.
  destruct (JsObj.get key keys) as [origs|] eqn:Hget; [|now rewrite Hkey].
  apply get_some_names in Hget. unfold own_names in Hall.
  rewrite Forall_forall in Hall. specialize (Hall _ Hget). congruence.
Qed.

(** The loop over the keys of a word throws exactly when one of them names
    an inherited member. *)
Lemma match_key_loop_cases orig found :
  forall keys, own_names keys ->
  if existsb JsObj.inherited found
  then loop (match_key orig) found keys = TypeError
  else loop (match_key orig) found keys
       = Normal (fold_left (match_key_own orig) found keys)
       /\ own_names (fold_left (match_key_own orig) found keys).
Proof.
  induction found as [|key found IH]; intros keys Hall; [now split|].
  cbn [existsb loop fold_left].
  destruct (JsObj.inherited key) eqn:Hkey; cbn [orb].
  - now rewrite match_key_throws.
  - rewrite (match_key_plain _ _ _ Hkey).
    apply IH. now apply match_key_own_names.
Qed.

(** So does the loop over the expansion. *)
Lemma match_keys_cases this index :
  forall keys, own_names keys ->
  if existsb (meets_inherited this) index
  then loop (match_word this) index keys = TypeError
  else loop (match_word this) index keys
       = Normal (fold_left (match_word_own this) index keys)
       /\ own_names (fold_left (match_word_own this) index keys).
Proof.
  induction index as [|wr index IH]; intros keys Hall; [now split|].
  cbn [existsb loop fold_left].
  assert (Hstep : if meets_inherited this wr
                  then match_word this keys wr = TypeError
                  else match_word this keys wr
                       = Normal (match_word_own this keys wr)
                       /\ own_names (match_word_own this keys wr)).
  { unfold meets_inherited, match_word, match_word_own.
    destruct (JsObj.get (fst wr) (collection this)) as [found|];
      [|now split].
    apply match_key_loop_cases, Hall. }
  destruct (meets_inherited this wr); cbn [orb].
  - now rewrite Hstep.
  - destruct Hstep as [-> Hown]. now apply IH.
Qed.

(** In the environment of the language and for a query without the word
    [__proto__], match throws a TypeError, in either mode, when a word of
    the Collection that starts with a token of the query has a key that
    names an inherited member, such as [constructor] or [toString]. *)
Theorem match_throws this str mode W e p key :
  env this = Standard ->
  taints str = false ->
  JsObj.get W (collection this) = Some e ->
  In key (WordEntry.keys e) ->
  JsObj.inherited key = true ->
  In p (JsObj.names (_index str)) ->
  String.prefix p W = true ->
  fst (match_ str mode this) = TypeError.
Proof.
  intros Henv Htaint Hget Hkey Hinh Hp Hpre.
  unfold JsObj.names in Hp. apply in_map_iff in Hp as ([p' r] & Hp' & Hp).
  simpl in Hp'. subst p'.
  assert (HW : In W (JsObj.names (_indexAgainst str this))).
  { unfold _indexAgainst.
    apply (_indexAgainst_enters _ W e p r);
      [now apply get_some_in|exact Hp|exact Hpre]. }
  unfold JsObj.names in HW. apply in_map_iff in HW as ([W' rec] & HW' & HW).
  simpl in HW'. subst W'.
  assert (Hmeets : existsb (meets_inherited this) (_indexAgainst str this)
                   = true).
  { apply existsb_exists. exists (W, rec). split; [exact HW|].
    unfold meets_inherited. cbn [fst]. rewrite Hget.
    apply existsb_exists. now exists key. }
  pose proof (match_keys_cases this (_indexAgainst str this) []
                (Forall_nil _)) as Hloop.
  rewrite Hmeets in Hloop.
  unfold match_. rewrite Htaint, Henv. unfold match_keys.
  now rewrite Hloop.
Qed.

Lemma match_throws_witness :
  fst (match_ (Some "hel") (Some "any")
         (add (Some "hello") (Some "constructor") empty))
  = TypeError.
Proof.
  apply (match_throws _ (Some "hel") (Some "any") "hello"
           (WordEntry.mk 5 1 ["constructor"]) "hel" "constructor");
    vm_compute; try reflexivity.
  - now left.
  - now left.
Defined.
